(** * goxml: a DOM for XML documents, verified against its description

    A shallow embedding of the package goxml (speedata/goxml).  Two
    revisions of the package are embedded, each in a module of its own:

    - [goxml]     the revision of [xmldecoder.go];
    - [goxml_id]  the later revision (kept in [Readme.md]) in which every node
                  carries an identity and attributes can be set from code.

    Pointers ([*Element], [*XMLDocument]) are addresses into an explicit heap,
    so that the aliasing between the stack of open elements, the children
    slices and the [Parent] back-references is the one of the Go program.
    Go maps are finite maps; the order in which [range] visits a map is not
    fixed by the language, so every function that ranges over a binding table
    takes the order as a parameter [range_ns], which may differ from one
    element to the next, and the theorems hold for every order. *)

From stdpp Require Import gmap strings list fin_maps sorting.
From Stdlib Require Import ZArith Ascii.

Set Warnings "-clear-no-such-hyp".

Local Open Scope string_scope.
Local Open Scope list_scope.

(** ** Text *)

(** The double quote, and the concatenation of the pieces written to a
    [strings.Builder]. *)
Definition dq : string := String (Ascii.ascii_of_nat 34) EmptyString.

Definition sb_String (pieces : list string) : string :=
  foldr String.append EmptyString pieces.

(** ** Package strings: [Replacer] *)
Module strings.

(** [NewReplacer(old1, new1, old2, new2, ...)]. *)
Definition Replacer := list (string * string).

(** The first pair, in argument order, whose old string starts [s].  An empty
    old string is outside this model and never matches. *)
Fixpoint lookup (r : Replacer) (s : string) : option (string * string) :=
  match r with
  | [] => None
  | (old, new) :: r' =>
      if (negb (String.eqb old EmptyString)) && String.prefix old s
      then Some (old, new) else lookup r' s
  end.

(** [Replace]: replacements are made in the order they appear in the target,
    without overlapping matches; [skip] counts the bytes of the current match
    that are still to be passed over. *)
Fixpoint Replace_from (r : Replacer) (skip : nat) (s : string) : string :=
  match s with
  | EmptyString => EmptyString
  | String b s' =>
      match skip with
      | S k => Replace_from r k s'
      | O =>
          match lookup r s with
          | Some (old, new) => new +:+ Replace_from r (String.length old - 1) s'
          | None => String b (Replace_from r 0 s')
          end
      end
  end.

Definition Replace (r : Replacer) (s : string) : string := Replace_from r 0 s.

End strings.

(** ** Package encoding/xml: what the token source delivers *)
Module xml.

Record Name := { Space : string; Local : string }.

(** [Attr]: the field [Name] is [AName] here. *)
Record Attr := { AName : Name; Value : string }.

Inductive Token :=
| StartElement (name : Name) (attr : list Attr)
| EndElement (name : Name)
| CharData (data : string)
| Comment (data : string)
| ProcInst (target : string) (inst : string)
| Directive (data : string).

(** The error that ends a run of [Token()] calls: [io.EOF] or anything else. *)
Inductive error :=
| EOF
| SyntaxError (msg : string).

(** One successful call of [Token()], with the [InputPos()] after it. *)
Record Read := { tok : Token; line : Z; column : Z }.

(** A decoder over a finite input: the tokens it delivers, then the error it
    ends with.  Every list of tokens with every error is a value of this
    type; which of them the decoder of encoding/xml can deliver is stated
    where it matters (the nesting of start and end tags, in
    [goxml_spec.Token_guarantee]). *)
Record Decoder := { reads : list Read; final : error }.

Definition NewDecoder (toks : list Token) (e : error) : Decoder :=
  {| reads := (fun t => {| tok := t; line := 1; column := 1 |}) <$> toks;
     final := e |}.

#[global] Instance Name_eq_dec : EqDecision Name.
Proof. solve_decision. Defined.
#[global] Instance Attr_eq_dec : EqDecision Attr.
Proof. solve_decision. Defined.

End xml.

(** ** Revision 1: [xmldecoder.go] *)
Module goxml.

Definition entitiesReplacer : strings.Replacer :=
  [("&", "&amp;"); ("<", "&lt;"); (dq, "&quot;")].

Definition escape (s : string) : string := strings.Replace entitiesReplacer s.

(** An [XMLNode] interface value: a pointer to a document or to an element,
    or a [CharData], [Comment] or [ProcInst] value. *)
Inductive XMLNode :=
| PtrXMLDocument (p : nat)
| PtrElement (p : nat)
| CharData (s : string)
| Comment (s : string)
| ProcInst (Target : string) (Inst : string).

#[global] Instance XMLNode_eq_dec : EqDecision XMLNode.
Proof. solve_decision. Defined.

(** [Parent] is [None] for the nil interface value. *)
Record Element := {
  Name : string;
  Prefix : string;
  Parent : option XMLNode;
  Namespaces : gmap string string;
  children : list XMLNode;
  attributes : list xml.Attr
}.

Record XMLDocument := { doc_children : list XMLNode }.

Record Heap := { elements : list Element; documents : list XMLDocument }.

Definition set_children (elt : Element) (cs : list XMLNode) : Element :=
  {| Name := Name elt; Prefix := Prefix elt; Parent := Parent elt;
     Namespaces := Namespaces elt; children := cs;
     attributes := attributes elt |}.

Definition set_Parent (elt : Element) (n : XMLNode) : Element :=
  {| Name := Name elt; Prefix := Prefix elt; Parent := Some n;
     Namespaces := Namespaces elt; children := children elt;
     attributes := attributes elt |}.

Definition store_element (h : Heap) (p : nat) (elt : Element) : Heap :=
  {| elements := <[p := elt]> (elements h); documents := documents h |}.

Definition store_document (h : Heap) (d : nat) (xr : XMLDocument) : Heap :=
  {| elements := elements h; documents := <[d := xr]> (documents h) |}.

(** [&Element{...}]: a new cell, at the next free address. *)
Definition new_element (h : Heap) (elt : Element) : nat * Heap :=
  (length (elements h),
   {| elements := elements h ++ [elt]; documents := documents h |}).

Definition new_document (h : Heap) (xr : XMLDocument) : nat * Heap :=
  (length (documents h),
   {| elements := elements h; documents := documents h ++ [xr] |}).

(** [NewElement()] *)
Definition NewElement : Element :=
  {| Name := EmptyString; Prefix := EmptyString; Parent := None;
     Namespaces := ∅; children := []; attributes := [] |}.

(** The children slice after [elt.Append(n)]. *)
Definition append_child (cs : list XMLNode) (n : XMLNode) : list XMLNode :=
  match n with
  | CharData cd =>
      match last cs with
      | Some (CharData str) => <[length cs - 1 := CharData (str +:+ cd)]> cs
      | _ => cs ++ [n]
      end
  | _ => cs ++ [n]
  end.

(** [Element.Append] (pointer receiver); [None] is the dereference of a pointer that is not
    in the heap. *)
Definition Element_Append (h : Heap) (p : nat) (n : XMLNode) : option Heap :=
  elt ← elements h !! p;
  Some (store_element h p (set_children elt (append_child (children elt) n))).

(** [n.setParent(par)]: only [*Element] stores it. *)
Definition setParent (h : Heap) (n : XMLNode) (par : XMLNode) : option Heap :=
  match n with
  | PtrElement q =>
      elt ← elements h !! q; Some (store_element h q (set_Parent elt par))
  | _ => Some h
  end.

(** [XMLDocument.Append] (pointer receiver) *)
Definition XMLDocument_Append (h : Heap) (d : nat) (n : XMLNode) : option Heap :=
  xr ← documents h !! d;
  setParent (store_document h d {| doc_children := doc_children xr ++ [n] |})
            n (PtrXMLDocument d).

(** [if c, ok := cur.(Appender); ok { c.Append(n) }] *)
Definition Append (h : Heap) (c : XMLNode) (n : XMLNode) : option Heap :=
  match c with
  | PtrElement p => Element_Append h p n
  | PtrXMLDocument d => XMLDocument_Append h d n
  | _ => Some h
  end.

(** [Children()] *)
Definition Children (h : Heap) (n : XMLNode) : list XMLNode :=
  match n with
  | PtrXMLDocument d => from_option doc_children [] (documents h !! d)
  | PtrElement p => from_option children [] (elements h !! p)
  | _ => []
  end.

(** [XMLDocument.Root]: the first child that is an element; [None] is the
    error. *)
Fixpoint first_element (cs : list XMLNode) : option nat :=
  match cs with
  | [] => None
  | PtrElement p :: _ => Some p
  | _ :: cs' => first_element cs'
  end.

Definition Root (xr : XMLDocument) : option nat :=
  first_element (doc_children xr).

(** *** The tree builder *)

(** The loop state of [Parse]: the heap, [cur] and [eltstack] (the top of the
    stack is the last entry of the slice). *)
Record State := { heap : Heap; cur : XMLNode; eltstack : list XMLNode }.

(** [doc := &XMLDocument{}; eltstack := []XMLNode{doc}; cur = doc] *)
Definition init : State :=
  {| heap := {| elements := []; documents := [ {| doc_children := [] |} ] |};
     cur := PtrXMLDocument 0;
     eltstack := [PtrXMLDocument 0] |}.

(** One pass of the loop over the attributes of a start tag: the binding table
    and the ordinary attributes so far. *)
Definition scan_attr (acc : gmap string string * list xml.Attr) (att : xml.Attr)
  : gmap string string * list xml.Attr :=
  if decide (xml.Local (xml.AName att) = "xmlns")
  then (<[EmptyString := xml.Value att]> acc.1, acc.2)
  else if decide (xml.Space (xml.AName att) = "xmlns")
  then (<[xml.Local (xml.AName att) := xml.Value att]> acc.1, acc.2)
  else (acc.1, acc.2 ++ [att]).

Section Ranged.

(** The order in which a [range] statement visits the binding table of the
    element at the given address. *)
Variable range_ns : nat → gmap string string → list (string * string).

(** [for k, v := range c.Namespaces { tmp.Namespaces[k] = v }] when [cur] is
    an element; [None] is a pointer that is not in the heap. *)
Definition inherited (h : Heap) (c : XMLNode) : option (gmap string string) :=
  match c with
  | PtrElement p =>
      elt ← elements h !! p;
      Some (foldl (λ m kv, <[kv.1 := kv.2]> m) ∅ (range_ns p (Namespaces elt)))
  | _ => Some ∅
  end.

(** [for prefix, ns := range tmp.Namespaces { if v.Name.Space == ns
    { tmp.Prefix = prefix } }], [q] being the address of [tmp]. *)
Definition resolve_prefix (q : nat) (space : string) (ns : gmap string string)
  : string :=
  foldl (λ pfx kv, if decide (space = kv.2) then kv.1 else pfx)
        EmptyString (range_ns q ns).

(** The body of the loop for one token; [None] is a run-time panic. *)
Definition step (st : State) (t : xml.Token) : option State :=
  match t with
  | xml.StartElement v_Name v_Attr =>
      ns0 ← inherited (heap st) (cur st);
      let scanned := foldl scan_attr (ns0, []) v_Attr in
      let tmp :=
        {| Name := xml.Local v_Name;
           Prefix := resolve_prefix (length (elements (heap st)))
                                    (xml.Space v_Name) scanned.1;
           Parent := Some (cur st);
           Namespaces := scanned.1;
           children := [];
           attributes := scanned.2 |} in
      let alloc := new_element (heap st) tmp in
      h ← Append alloc.2 (cur st) (PtrElement alloc.1);
      Some {| heap := h; cur := PtrElement alloc.1;
              eltstack := eltstack st ++ [PtrElement alloc.1] |}
  | xml.CharData v =>
      h ← Append (heap st) (cur st) (CharData v);
      Some {| heap := h; cur := cur st; eltstack := eltstack st |}
  | xml.ProcInst target inst =>
      h ← Append (heap st) (cur st) (ProcInst target inst);
      Some {| heap := h; cur := cur st; eltstack := eltstack st |}
  | xml.Comment v =>
      h ← Append (heap st) (cur st) (Comment v);
      Some {| heap := h; cur := cur st; eltstack := eltstack st |}
  | xml.EndElement _ =>
      (* cur, eltstack = eltstack[len(eltstack)-2], eltstack[:len(eltstack)-1] *)
      if decide (length (eltstack st) < 2) then None
      else
        c ← eltstack st !! (length (eltstack st) - 2);
        Some {| heap := heap st; cur := c;
                eltstack := take (length (eltstack st) - 1) (eltstack st) |}
  | xml.Directive _ => Some st
  end.

Fixpoint run (st : State) (toks : list xml.Token) : option State :=
  match toks with
  | [] => Some st
  | t :: toks' => st' ← step st t; run st' toks'
  end.

(** What a call of [Parse] comes to: [(doc, nil)] with the heap it built,
    [(nil, err)], or a run-time panic. *)
Inductive Result :=
| Returned (doc : nat) (h : Heap)
| Failed (e : xml.error)
| Panicked.

Definition Parse (dec : xml.Decoder) : Result :=
  match run init (xml.tok <$> xml.reads dec) with
  | None => Panicked
  | Some st =>
      match xml.final dec with
      | xml.EOF => Returned 0 (heap st)
      | e => Failed e
      end
  end.

(** *** The serializer *)

(** One pass of the loop over the binding table in [toxml]: the printed set,
    and the bindings written so far. *)
Definition print_ns (acc : gset string * list (string * string))
    (kv : string * string) : gset string * list (string * string) :=
  if decide (kv.2 ∈ acc.1) then acc
  else ({[kv.2]} ∪ acc.1, acc.2 ++ [kv]).

(** [fmt.Fprintf(&sb, " %s=\"%s\"", prefix, ns)] for a binding. *)
Definition fmt_ns (kv : string * string) : string :=
  " " +:+ (if decide (kv.1 = EmptyString) then "xmlns" else "xmlns:" +:+ kv.1)
      +:+ "=" +:+ dq +:+ kv.2 +:+ dq.

(** [fmt.Fprintf(&sb, " %s=\"%s\"", att.Name.Local, escape(att.Value))] *)
Definition fmt_attr (att : xml.Attr) : string :=
  " " +:+ xml.Local (xml.AName att) +:+ "=" +:+ dq
      +:+ escape (xml.Value att) +:+ dq.

(** A namespace declaration written by [toxml]: the element that wrote it and
    the binding (prefix, URI) it was written for. *)
Definition Decl : Type := nat * (string * string).

(** The loop over the children, with [rec] the call [child.toxml]. *)
Fixpoint toxml_children
    (rec : XMLNode → gset string → option (string * gset string * list Decl))
    (cs : list XMLNode) (printed : gset string)
  : option (string * gset string * list Decl) :=
  match cs with
  | [] => Some (EmptyString, printed, [])
  | c :: cs' =>
      r1 ← rec c printed;
      r2 ← toxml_children rec cs' r1.1.2;
      Some (r1.1.1 +:+ r2.1.1, r2.1.2, r1.2 ++ r2.2)
  end.

(** [toxml]: the text, the printed set afterwards (the Go map is shared and
    mutated) and, as a record of the run, the declarations written.  [fuel]
    bounds the depth of the calls; [None] is a pointer that is not in the heap
    or a depth beyond [fuel]. *)
Fixpoint toxml (fuel : nat) (h : Heap) (n : XMLNode) (namespacePrinted : gset string)
  : option (string * gset string * list Decl) :=
  match fuel with
  | O => None
  | S fuel' =>
      match n with
      | CharData cd => Some (escape cd, namespacePrinted, [])
      | Comment cmt => Some ("<!--" +:+ cmt +:+ "-->", namespacePrinted, [])
      | ProcInst target inst =>
          Some ("<?" +:+ target +:+ " " +:+ inst +:+ "?>", namespacePrinted, [])
      | PtrXMLDocument d =>
          xr ← documents h !! d;
          toxml_children (toxml fuel' h) (doc_children xr) namespacePrinted
      | PtrElement p =>
          elt ← elements h !! p;
          let eltname :=
            if decide (Prefix elt = EmptyString) then Name elt
            else Prefix elt +:+ ":" +:+ Name elt in
          let nsloop :=
            foldl print_ns (namespacePrinted, []) (range_ns p (Namespaces elt)) in
          let opened :=
            "<" +:+ eltname +:+ sb_String (fmt_ns <$> nsloop.2)
                +:+ sb_String (fmt_attr <$> attributes elt) in
          if decide (length (children elt) = 0)
          then Some (opened +:+ " />", nsloop.1, (λ kv, (p, kv)) <$> nsloop.2)
          else
            r ← toxml_children (toxml fuel' h) (children elt) nsloop.1;
            Some (opened +:+ ">" +:+ r.1.1 +:+ "</" +:+ eltname +:+ ">",
                  r.1.2, ((λ kv, (p, kv)) <$> nsloop.2) ++ r.2)
      end
  end.

(** The depth a heap of this size can have at most, when it has no cycle. *)
Definition depth_bound (h : Heap) : nat := length (elements h) + 2.

(** [ToXML()], of an element or of a document: [toxml] with a new, empty
    printed set. *)
Definition ToXML (h : Heap) (n : XMLNode) : option string :=
  r ← toxml (depth_bound h) h n ∅; Some r.1.1.

(** The elements of a subtree in document order (pre-order, depth first). *)
Fixpoint preorder_children (rec : XMLNode → option (list nat))
    (cs : list XMLNode) : option (list nat) :=
  match cs with
  | [] => Some []
  | c :: cs' => l1 ← rec c; l2 ← preorder_children rec cs'; Some (l1 ++ l2)
  end.

Fixpoint preorder (fuel : nat) (h : Heap) (n : XMLNode) : option (list nat) :=
  match fuel with
  | O => None
  | S fuel' =>
      match n with
      | PtrXMLDocument d =>
          xr ← documents h !! d;
          preorder_children (preorder fuel' h) (doc_children xr)
      | PtrElement p =>
          elt ← elements h !! p;
          l ← preorder_children (preorder fuel' h) (children elt);
          Some (p :: l)
      | _ => Some []
      end
  end.

End Ranged.

(** *** Reading a tree *)

Record Attribute := {
  att_Name : string;
  att_Namespace : string;
  att_Prefix : string;
  att_Value : string
}.

(** [Element.Attributes]: [Prefix] keeps its zero value. *)
Definition Attributes (elt : Element) : list Attribute :=
  (λ xmlattr,
     {| att_Name := xml.Local (xml.AName xmlattr);
        att_Namespace := xml.Space (xml.AName xmlattr);
        att_Prefix := EmptyString;
        att_Value := xml.Value xmlattr |}) <$> attributes elt.

(** The loop of [Element.Stringvalue] over the children, with [rec] the call
    [t.Stringvalue()] on a child element: the strings collected in [as]. *)
Fixpoint Stringvalue_children (rec : nat → option string) (cs : list XMLNode)
  : option (list string) :=
  match cs with
  | [] => Some []
  | CharData t :: cs' => l ← Stringvalue_children rec cs'; Some (t :: l)
  | PtrElement q :: cs' =>
      s ← rec q; l ← Stringvalue_children rec cs'; Some (s :: l)
  | _ :: cs' => Stringvalue_children rec cs'
  end.

(** [Element.Stringvalue]: [strings.Join(as, "")]; [fuel] bounds the depth of
    the calls. *)
Fixpoint Stringvalue (fuel : nat) (h : Heap) (p : nat) : option string :=
  match fuel with
  | O => None
  | S fuel' =>
      elt ← elements h !! p;
      l ← Stringvalue_children (Stringvalue fuel' h) (children elt);
      Some (sb_String l)
  end.

End goxml.

(** ** Revision 2: node identities and attributes set from code ([Readme.md]) *)
Module goxml_id.

(** The Go type [int] (64 bits): [i++] wraps around. *)
Definition int_max : Z := 2 ^ 63 - 1.
Definition int_min : Z := - 2 ^ 63.
Definition int_incr (i : Z) : Z := if decide (i = int_max) then int_min else (i + 1)%Z.

(** [<-ids]: the value received, and the state of [genIntegerSequence]
    afterwards.  The generator is one for the whole process; its state is
    passed explicitly. *)
Definition recv_ids (i : Z) : Z * Z := (i, int_incr i).

Definition escape (s : string) : string := goxml.escape s.

Record Attribute := {
  att_ID : Z;
  att_Name : string;
  att_Namespace : string;
  att_Prefix : string;
  att_Value : string
}.

Record CharData := { cd_ID : Z; cd_Contents : string }.
Record Comment := { cmt_ID : Z; cmt_Contents : string }.
Record ProcInst := { pi_ID : Z; pi_Target : string; pi_Inst : string }.

(** An [XMLNode] interface value.  [CharData] and [Attribute] implement the
    interface by value, so a pointer to one is an [XMLNode] too; the package
    never writes through such a pointer, and the model keeps the value it
    points to. *)
Inductive XMLNode :=
| PtrXMLDocument (p : nat)
| PtrElement (p : nat)
| ValCharData (cd : CharData)
| PtrCharData (cd : CharData)
| ValComment (cmt : Comment)
| ValProcInst (pi : ProcInst)
| ValAttribute (a : Attribute)
| PtrAttribute (a : Attribute).

Record Element := {
  ID : Z;
  Name : string;
  Prefix : string;
  Parent : option XMLNode;
  Namespaces : gmap string string;
  children : list XMLNode;
  attributes : list xml.Attr;
  Line : Z;
  Pos : Z
}.

Record XMLDocument := { doc_ID : Z; doc_children : list XMLNode }.

Record Heap := { elements : list Element; documents : list XMLDocument }.

Definition set_children (elt : Element) (cs : list XMLNode) : Element :=
  {| ID := ID elt; Name := Name elt; Prefix := Prefix elt; Parent := Parent elt;
     Namespaces := Namespaces elt; children := cs;
     attributes := attributes elt; Line := Line elt; Pos := Pos elt |}.

Definition set_attributes (elt : Element) (attrs : list xml.Attr) : Element :=
  {| ID := ID elt; Name := Name elt; Prefix := Prefix elt; Parent := Parent elt;
     Namespaces := Namespaces elt; children := children elt;
     attributes := attrs; Line := Line elt; Pos := Pos elt |}.

Definition set_Parent (elt : Element) (n : XMLNode) : Element :=
  {| ID := ID elt; Name := Name elt; Prefix := Prefix elt; Parent := Some n;
     Namespaces := Namespaces elt; children := children elt;
     attributes := attributes elt; Line := Line elt; Pos := Pos elt |}.

Definition store_element (h : Heap) (p : nat) (elt : Element) : Heap :=
  {| elements := <[p := elt]> (elements h); documents := documents h |}.

Definition store_document (h : Heap) (d : nat) (xr : XMLDocument) : Heap :=
  {| elements := elements h; documents := <[d := xr]> (documents h) |}.

Definition new_element (h : Heap) (elt : Element) : nat * Heap :=
  (length (elements h),
   {| elements := elements h ++ [elt]; documents := documents h |}).

(** The loop of [Append] over the attributes: the value of the first attribute
    with this local name and namespace is overwritten where it stands; [None]
    when the loop ends without a match. *)
Fixpoint overwrite_value (attrs : list xml.Attr) (name space value : string)
  : option (list xml.Attr) :=
  match attrs with
  | [] => None
  | attr :: attrs' =>
      if decide (xml.Local (xml.AName attr) = name
                 ∧ xml.Space (xml.AName attr) = space)
      then Some ({| xml.AName := xml.AName attr; xml.Value := value |} :: attrs')
      else cons attr <$> overwrite_value attrs' name space value
  end.

Definition append_attribute (attrs : list xml.Attr) (t : Attribute) : list xml.Attr :=
  match overwrite_value attrs (att_Name t) (att_Namespace t) (att_Value t) with
  | Some attrs' => attrs'
  | None =>
      attrs ++ [ {| xml.AName := {| xml.Space := att_Namespace t;
                                    xml.Local := att_Name t |};
                    xml.Value := att_Value t |} ]
  end.

(** [Element.Append] (pointer receiver), on the fields of the element.  The
    merged text is the composite literal [CharData{Contents: ...}], whose
    [ID] is the zero value. *)
Definition append_node (elt : Element) (n : XMLNode) : Element :=
  match n with
  | ValAttribute t => set_attributes elt (append_attribute (attributes elt) t)
  | PtrAttribute t => set_attributes elt (append_attribute (attributes elt) t)
  | ValCharData t =>
      match last (children elt) with
      | Some (ValCharData str) =>
          set_children elt
            (<[length (children elt) - 1 :=
                 ValCharData {| cd_ID := 0;
                                cd_Contents := cd_Contents str +:+ cd_Contents t |}]>
               (children elt))
      | _ => set_children elt (children elt ++ [n])
      end
  | PtrCharData t =>
      match last (children elt) with
      | Some (PtrCharData str) =>
          set_children elt
            (<[length (children elt) - 1 :=
                 ValCharData {| cd_ID := 0;
                                cd_Contents := cd_Contents str +:+ cd_Contents t |}]>
               (children elt))
      | _ => set_children elt (children elt ++ [n])
      end
  | _ => set_children elt (children elt ++ [n])
  end.

Definition Element_Append (h : Heap) (p : nat) (n : XMLNode) : option Heap :=
  elt ← elements h !! p; Some (store_element h p (append_node elt n)).

(** [n.setParent(par)]: only an element stores it; on an [Attribute] it
    panics ([None]). *)
Definition setParent (h : Heap) (n : XMLNode) (par : XMLNode) : option Heap :=
  match n with
  | PtrElement q =>
      elt ← elements h !! q; Some (store_element h q (set_Parent elt par))
  | ValAttribute _ | PtrAttribute _ => None
  | _ => Some h
  end.

Definition XMLDocument_Append (h : Heap) (d : nat) (n : XMLNode) : option Heap :=
  xr ← documents h !! d;
  setParent
    (store_document h d {| doc_ID := doc_ID xr;
                           doc_children := doc_children xr ++ [n] |})
    n (PtrXMLDocument d).

Definition Append (h : Heap) (c : XMLNode) (n : XMLNode) : option Heap :=
  match c with
  | PtrElement p => Element_Append h p n
  | PtrXMLDocument d => XMLDocument_Append h d n
  | _ => Some h
  end.

(** [for k, v := range elt.Namespaces { if v == attr.Name.Space
    { attrPrefix = k; break } }] *)
Fixpoint first_prefix (bindings : list (string * string)) (space : string) : string :=
  match bindings with
  | [] => EmptyString
  | kv :: bindings' =>
      if decide (kv.2 = space) then kv.1 else first_prefix bindings' space
  end.

(** [Element.SetAttribute] (pointer receiver), on the fields of the element;
    [range_ns] is the order in which this call ranges over the binding
    table. *)
Definition SetAttribute (range_ns : gmap string string → list (string * string))
    (elt : Element) (attr : xml.Attr) : Element :=
  let newAttributes :=
    filter (λ curattr, xml.AName curattr ≠ xml.AName attr) (attributes elt) in
  let attr' :=
    if decide (xml.Space (xml.AName attr) ≠ EmptyString)
    then {| xml.AName :=
              {| xml.Space := xml.Space (xml.AName attr);
                 xml.Local :=
                   first_prefix (range_ns (Namespaces elt))
                                (xml.Space (xml.AName attr))
                   +:+ ":" +:+ xml.Local (xml.AName attr) |};
            xml.Value := xml.Value attr |}
    else attr in
  set_attributes elt (newAttributes ++ [attr']).

Section Ranged.

(** The order in which a [range] statement visits the binding table of the
    element at the given address. *)
Variable range_ns : nat → gmap string string → list (string * string).

(** The loop state of [Parse], with the state of the identity generator. *)
Record State := {
  heap : Heap;
  cur : XMLNode;
  eltstack : list XMLNode;
  ids : Z
}.

(** [doc := &XMLDocument{ID: <-ids}] and the rest of the set-up. *)
Definition init (next : Z) : State :=
  {| heap := {| elements := [];
                documents := [ {| doc_ID := (recv_ids next).1;
                                  doc_children := [] |} ] |};
     cur := PtrXMLDocument 0;
     eltstack := [PtrXMLDocument 0];
     ids := (recv_ids next).2 |}.

Definition inherited (h : Heap) (c : XMLNode) : option (gmap string string) :=
  match c with
  | PtrElement p =>
      elt ← elements h !! p;
      Some (foldl (λ m kv, <[kv.1 := kv.2]> m) ∅ (range_ns p (Namespaces elt)))
  | _ => Some ∅
  end.

Definition resolve_prefix (q : nat) (space : string) (ns : gmap string string)
  : string :=
  foldl (λ pfx kv, if decide (space = kv.2) then kv.1 else pfx)
        EmptyString (range_ns q ns).

(** The body of the loop for one read of the decoder; [None] is a run-time
    panic. *)
Definition step (st : State) (r : xml.Read) : option State :=
  match xml.tok r with
  | xml.StartElement v_Name v_Attr =>
      let id := recv_ids (ids st) in
      ns0 ← inherited (heap st) (cur st);
      let scanned := foldl goxml.scan_attr (ns0, []) v_Attr in
      let tmp :=
        {| ID := id.1;
           Name := xml.Local v_Name;
           Prefix := resolve_prefix (length (elements (heap st)))
                                    (xml.Space v_Name) scanned.1;
           Parent := Some (cur st);
           Namespaces := scanned.1;
           children := [];
           attributes := scanned.2;
           Line := xml.line r;
           Pos := xml.column r |} in
      let alloc := new_element (heap st) tmp in
      h ← Append alloc.2 (cur st) (PtrElement alloc.1);
      Some {| heap := h; cur := PtrElement alloc.1;
              eltstack := eltstack st ++ [PtrElement alloc.1]; ids := id.2 |}
  | xml.CharData v =>
      let id := recv_ids (ids st) in
      h ← Append (heap st) (cur st)
             (ValCharData {| cd_ID := id.1; cd_Contents := v |});
      Some {| heap := h; cur := cur st; eltstack := eltstack st; ids := id.2 |}
  | xml.ProcInst target inst =>
      let id := recv_ids (ids st) in
      h ← Append (heap st) (cur st)
             (ValProcInst {| pi_ID := id.1; pi_Target := target; pi_Inst := inst |});
      Some {| heap := h; cur := cur st; eltstack := eltstack st; ids := id.2 |}
  | xml.Comment v =>
      let id := recv_ids (ids st) in
      h ← Append (heap st) (cur st)
             (ValComment {| cmt_ID := id.1; cmt_Contents := v |});
      Some {| heap := h; cur := cur st; eltstack := eltstack st; ids := id.2 |}
  | xml.EndElement _ =>
      if decide (length (eltstack st) < 2) then None
      else
        c ← eltstack st !! (length (eltstack st) - 2);
        Some {| heap := heap st; cur := c;
                eltstack := take (length (eltstack st) - 1) (eltstack st);
                ids := ids st |}
  | xml.Directive _ => Some st
  end.

Fixpoint run (st : State) (rs : list xml.Read) : option State :=
  match rs with
  | [] => Some st
  | r :: rs' => st' ← step st r; run st' rs'
  end.

Inductive Result :=
| Returned (doc : nat) (h : Heap)
| Failed (e : xml.error)
| Panicked.

(** [Parse], called when the identity generator is about to send [next]. *)
Definition Parse (next : Z) (dec : xml.Decoder) : Result :=
  match run (init next) (xml.reads dec) with
  | None => Panicked
  | Some st =>
      match xml.final dec with
      | xml.EOF => Returned 0 (heap st)
      | e => Failed e
      end
  end.

End Ranged.

(** [getID()] *)
Definition getID (h : Heap) (n : XMLNode) : option Z :=
  match n with
  | PtrXMLDocument d => doc_ID <$> documents h !! d
  | PtrElement p => ID <$> elements h !! p
  | ValCharData cd | PtrCharData cd => Some (cd_ID cd)
  | ValComment cmt => Some (cmt_ID cmt)
  | ValProcInst pi => Some (pi_ID pi)
  | ValAttribute a | PtrAttribute a => Some (att_ID a)
  end.

(** [Children()] *)
Definition Children (h : Heap) (n : XMLNode) : option (list XMLNode) :=
  match n with
  | PtrXMLDocument d => doc_children <$> documents h !! d
  | PtrElement p => children <$> elements h !! p
  | _ => Some []
  end.

(** The identities met in a pre-order, depth-first walk from [n]. *)
Fixpoint preorder_ids_children (rec : XMLNode → option (list Z))
    (cs : list XMLNode) : option (list Z) :=
  match cs with
  | [] => Some []
  | c :: cs' => l1 ← rec c; l2 ← preorder_ids_children rec cs'; Some (l1 ++ l2)
  end.

Fixpoint preorder_ids (fuel : nat) (h : Heap) (n : XMLNode) : option (list Z) :=
  match fuel with
  | O => None
  | S fuel' =>
      id ← getID h n;
      cs ← Children h n;
      l ← preorder_ids_children (preorder_ids fuel' h) cs;
      Some (id :: l)
  end.

(** [Element.Attributes]: the inner loop ranges over the binding table once
    for every attribute, [range_ns i] being the order of the range for the
    attribute at index [i]; the [ID] keeps its zero value. *)
Definition Attributes (range_ns : nat → gmap string string → list (string * string))
    (elt : Element) : list Attribute :=
  imap (λ i xmlattr,
          {| att_ID := 0;
             att_Name := xml.Local (xml.AName xmlattr);
             att_Namespace := xml.Space (xml.AName xmlattr);
             att_Prefix :=
               foldl (λ pfx kv,
                        if decide (kv.2 = xml.Space (xml.AName xmlattr))
                        then kv.1 else pfx)
                     EmptyString (range_ns i (Namespaces elt));
             att_Value := xml.Value xmlattr |})
       (attributes elt).

(** [SortByDocumentOrder.Less], on two nodes. *)
Definition Less (h : Heap) (a b : XMLNode) : option bool :=
  ia ← getID h a; ib ← getID h b; Some (bool_decide (ia < ib)%Z).

(** The loop of [SortAndEliminateDuplicates], [n] passes from index [i] on:
    the slice, written in place, and [e]. *)
Fixpoint eliminate (h : Heap) (n i e : nat) (xn : list XMLNode)
  : option (list XMLNode * nat) :=
  match n with
  | O => Some (xn, e)
  | S n' =>
      a ← xn !! i;
      b ← xn !! (i - 1);
      ia ← getID h a;
      ib ← getID h b;
      if decide (ia = ib) then eliminate h n' (S i) e xn
      else eliminate h n' (S i) (S e) (<[e := a]> xn)
  end.

(** [SortAndEliminateDuplicates]; [sort_Sort] is [sort.Sort] on the slice. *)
Definition SortAndEliminateDuplicates
    (sort_Sort : list XMLNode → list XMLNode) (h : Heap) (xn : list XMLNode)
  : option (list XMLNode) :=
  let xn := sort_Sort xn in
  if decide (length xn < 2) then Some xn
  else
    r ← eliminate h (length xn - 1) 1 1 xn;
    Some (take r.2 r.1).

End goxml_id.

(** ** Vocabulary of the statements about revision 1 *)
Module goxml_spec.
Import goxml.

(** The tokens of a decoder. *)
Definition tokens (dec : xml.Decoder) : list xml.Token := xml.tok <$> xml.reads dec.

(** Every end-tag of [toks] closes a start-tag that is still open, [depth]
    elements being open at the start. *)
Fixpoint nesting (depth : nat) (toks : list xml.Token) : bool :=
  match toks with
  | [] => true
  | xml.StartElement _ _ :: toks' => nesting (S depth) toks'
  | xml.EndElement _ :: toks' =>
      match depth with
      | O => false
      | S depth' => nesting depth' toks'
      end
  | _ :: toks' => nesting depth toks'
  end.

(** The number of elements still open after [toks]. *)
Fixpoint open_after (depth : nat) (toks : list xml.Token) : nat :=
  match toks with
  | [] => depth
  | xml.StartElement _ _ :: toks' => open_after (S depth) toks'
  | xml.EndElement _ :: toks' => open_after (depth - 1) toks'
  | _ :: toks' => open_after depth toks'
  end.


(** A pointer to a document or an element of the heap. *)
Definition valid (h : Heap) (n : XMLNode) : Prop :=
  match n with
  | PtrXMLDocument d => d < length (documents h)
  | PtrElement p => p < length (elements h)
  | _ => False
  end.

(** The children slice of container [c] after [c.Append(n)]: only an element
    merges text. *)
Definition grown (c : XMLNode) (cs : list XMLNode) (n : XMLNode) : list XMLNode :=
  match c with
  | PtrElement _ => append_child cs n
  | _ => cs ++ [n]
  end.

(** The elements among a list of nodes. *)
Definition elem_ptrs (cs : list XMLNode) : list nat :=
  omap (λ n, match n with PtrElement q => Some q | _ => None end) cs.

(** Two [CharData] siblings stand next to each other. *)
Fixpoint adjacent_CharData (cs : list XMLNode) : bool :=
  match cs with
  | CharData _ :: ((CharData _ :: _) as cs') => true
  | _ :: cs' => adjacent_CharData cs'
  | [] => false
  end.

(** The URI of a declaration. *)
Definition decl_uri (x : Decl) : string := x.2.2.

(** The entries of [l] that use their key for the first time, the keys in
    [printed] counting as used. *)
Fixpoint first_uses {A} (key : A → string) (printed : gset string) (l : list A)
  : list A :=
  match l with
  | [] => []
  | x :: l' =>
      if decide (key x ∈ printed) then first_uses key printed l'
      else x :: first_uses key ({[key x]} ∪ printed) l'
  end.

Section Bindings.
Variable range_ns : nat → gmap string string → list (string * string).

(** The bindings of element [p], in the order [toxml] ranges over them. *)
Definition bindings_of (h : Heap) (p : nat) : list Decl :=
  match elements h !! p with
  | Some elt => (λ kv, (p, kv)) <$> range_ns p (Namespaces elt)
  | None => []
  end.

(** The bindings of the elements [vis], in that order. *)
Definition all_bindings (h : Heap) (vis : list nat) : list Decl :=
  vis ≫= bindings_of h.

(** The bindings of element [p], without the address. *)
Definition own_bindings (h : Heap) (p : nat) : list (string * string) :=
  match elements h !! p with
  | Some elt => range_ns p (Namespaces elt)
  | None => []
  end.

(** The declarations that the elements [vis] write, one list for each, when
    they are gone through in this order and [printed] holds the URIs declared
    before: an element declares those of its bindings whose URI has not been
    declared yet. *)
Fixpoint plan_of (h : Heap) (printed : gset string) (vis : list nat)
  : list (list (string * string)) :=
  match vis with
  | [] => []
  | p :: vis' =>
      let own := first_uses snd printed (own_bindings h p) in
      own :: plan_of h (printed ∪ list_to_set (snd <$> own)) vis'
  end.

End Bindings.

(** A node that [toxml] can be called on: a pointer into the heap, or a value. *)
Definition node_ok (h : Heap) (n : XMLNode) : Prop :=
  match n with
  | PtrXMLDocument d => d < length (documents h)
  | PtrElement p => p < length (elements h)
  | _ => True
  end.

(** The depth of calls that [toxml] needs at most on [n], in a heap where
    children are allocated after their parents. *)
Definition need (h : Heap) (n : XMLNode) : nat :=
  match n with
  | PtrXMLDocument _ => length (elements h) + 2
  | PtrElement p => length (elements h) - p + 1
  | _ => 1
  end.

(** The name an element is written with. *)
Definition written_name (elt : Element) : string :=
  if decide (Prefix elt = EmptyString) then Name elt
  else Prefix elt +:+ ":" +:+ Name elt.

(** An attribute written as its local name and its escaped value. *)
Definition local_attr (att : xml.Attr) : string :=
  " " +:+ xml.Local (xml.AName att) +:+ "=" +:+ dq
      +:+ escape (xml.Value att) +:+ dq.

(** A namespace declaration as the text has it: xmlns="uri" for the empty
    prefix, xmlns:prefix="uri" for any other, after a space. *)
Definition declaration (kv : string * string) : string :=
  match kv.1 with
  | EmptyString => " xmlns=" +:+ dq +:+ kv.2 +:+ dq
  | String _ _ => " xmlns:" +:+ kv.1 +:+ "=" +:+ dq +:+ kv.2 +:+ dq
  end.

(** The text of a subtree, written from the description of the format, in
    which the declarations are given: [plan] has one list of declarations for
    every element, in the order the elements are gone through, and the
    element writes that list after its name.  What is left of the plan is
    returned with the text. *)
Fixpoint text_children
    (rec : XMLNode → list (list (string * string))
           → option (string * list (list (string * string))))
    (cs : list XMLNode) (plan : list (list (string * string)))
  : option (string * list (list (string * string))) :=
  match cs with
  | [] => Some (EmptyString, plan)
  | c :: cs' =>
      r1 ← rec c plan;
      r2 ← text_children rec cs' r1.2;
      Some (r1.1 +:+ r2.1, r2.2)
  end.

Fixpoint text (fuel : nat) (h : Heap) (n : XMLNode)
    (plan : list (list (string * string)))
  : option (string * list (list (string * string))) :=
  match fuel with
  | O => None
  | S fuel' =>
      match n with
      | CharData cd => Some (escape cd, plan)
      | Comment cmt => Some ("<!--" +:+ cmt +:+ "-->", plan)
      | ProcInst target inst =>
          Some ("<?" +:+ target +:+ " " +:+ inst +:+ "?>", plan)
      | PtrXMLDocument d =>
          xr ← documents h !! d;
          text_children (text fuel' h) (doc_children xr) plan
      | PtrElement p =>
          elt ← elements h !! p;
          match plan with
          | [] => None
          | own :: plan' =>
              let start :=
                "<" +:+ written_name elt +:+ sb_String (declaration <$> own)
                    +:+ sb_String (local_attr <$> attributes elt) in
              match children elt with
              | [] => Some (start +:+ " />", plan')
              | _ :: _ =>
                  r ← text_children (text fuel' h) (children elt) plan';
                  Some (start +:+ ">" +:+ r.1
                              +:+ "</" +:+ written_name elt +:+ ">", r.2)
              end
          end
      end
  end.

(** The heap in which no attribute has a namespace any more. *)
Definition forget_space (att : xml.Attr) : xml.Attr :=
  {| xml.AName := {| xml.Space := EmptyString;
                     xml.Local := xml.Local (xml.AName att) |};
     xml.Value := xml.Value att |}.

Definition forget_attr_space (h : Heap) : Heap :=
  {| elements :=
       (λ elt, {| Name := Name elt; Prefix := Prefix elt; Parent := Parent elt;
                  Namespaces := Namespaces elt; children := children elt;
                  attributes := forget_space <$> attributes elt |})
       <$> elements h;
     documents := documents h |}.

(** The shape of a heap built by [Parse]. *)
Record HInv (h : Heap) : Prop := {
  (* a child that is an element has the node it is a child of as [Parent] *)
  inv_child : ∀ c q, PtrElement q ∈ Children h c →
                ∃ e, elements h !! q = Some e ∧ Parent e = Some c;
  (* every element is a child of its [Parent] *)
  inv_parent : ∀ q e, elements h !! q = Some e →
                ∃ c, Parent e = Some c ∧ valid h c ∧ PtrElement q ∈ Children h c;
  (* no element is twice among the children of a node *)
  inv_once : ∀ c, NoDup (elem_ptrs (Children h c));
  (* a child is allocated after its parent: the heap has no cycle *)
  inv_ordered : ∀ p q, PtrElement q ∈ Children h (PtrElement p) → p < q;
  (* a document is nobody's child *)
  inv_nodoc : ∀ c d, PtrXMLDocument d ∉ Children h c;
  (* the text below an element is merged *)
  inv_coalesced : ∀ p, adjacent_CharData (Children h (PtrElement p)) = false
}.

(** Heap [h'] is [h] after node [n] was appended to [c]: [n] is a leaf, or an
    element allocated for the occasion with [c] as its [Parent]. *)
Definition Grows (h h' : Heap) (c n : XMLNode) : Prop :=
  valid h c
  ∧ length (documents h') = length (documents h)
  ∧ (∀ c', Children h' c'
           = if decide (c' = c) then grown c (Children h c) n else Children h c')
  ∧ (∀ q e, elements h !! q = Some e →
       ∃ e', elements h' !! q = Some e' ∧ Parent e' = Parent e)
  ∧ ((length (elements h') = length (elements h)
      ∧ (∀ q, n ≠ PtrElement q) ∧ (∀ d, n ≠ PtrXMLDocument d))
     ∨ (length (elements h') = S (length (elements h))
        ∧ n = PtrElement (length (elements h))
        ∧ ∃ e', elements h' !! length (elements h) = Some e'
                ∧ Parent e' = Some c)).

(** Every element of [h] is in [h'], with the same [Parent]. *)
Definition Extends (h h' : Heap) : Prop :=
  ∀ q e, elements h !! q = Some e →
    ∃ e', elements h' !! q = Some e' ∧ Parent e' = Parent e.

(** The loop invariant of [Parse]. *)
Record Inv (st : State) : Prop := {
  inv_heap : HInv (heap st);
  inv_docs : length (documents (heap st)) = 1;
  inv_stack : Forall (valid (heap st)) (eltstack st);
  inv_cur : last (eltstack st) = Some (cur st)
}.

(** The binding a start-tag attribute declares, if it is a declaration. *)
Definition declares (att : xml.Attr) : option (string * string) :=
  if decide (xml.Local (xml.AName att) = "xmlns")
  then Some (EmptyString, xml.Value att)
  else if decide (xml.Space (xml.AName att) = "xmlns")
  then Some (xml.Local (xml.AName att), xml.Value att)
  else None.

(** The URI that the attributes of a tag declare for prefix [k]: the last
    declaration counts. *)
Fixpoint declared (k : string) (attrs : list xml.Attr) : option string :=
  match attrs with
  | [] => None
  | att :: attrs' =>
      match declared k attrs' with
      | Some v => Some v
      | None =>
          match declares att with
          | Some kv => if decide (kv.1 = k) then Some kv.2 else None
          | None => None
          end
      end
  end.

(** The binding table of a node of the stack: empty for the document. *)
Definition table (h : Heap) (c : XMLNode) : gmap string string :=
  match c with
  | PtrElement p => from_option Namespaces ∅ (elements h !! p)
  | _ => ∅
  end.

(** The number of start-tags among tokens. *)
Fixpoint start_tags (toks : list xml.Token) : nat :=
  match toks with
  | [] => 0
  | xml.StartElement _ _ :: toks' => S (start_tags toks')
  | _ :: toks' => start_tags toks'
  end.

(** Every element of [h] is in [h'] with the same name, prefix, bindings and
    attributes. *)
Definition Keeps (h h' : Heap) : Prop :=
  ∀ q e, elements h !! q = Some e →
    ∃ e', elements h' !! q = Some e'
      ∧ Name e' = Name e ∧ Prefix e' = Prefix e
      ∧ Namespaces e' = Namespaces e ∧ attributes e' = attributes e.

End goxml_spec.

(** ** Vocabulary of the statements about revision 2 *)
Module goxml_id_spec.
Import goxml_id.

(** The identity of a node that has one. *)
Definition id_of (h : Heap) (n : XMLNode) : Z := default 0%Z (getID h n).

(** The nodes of [l] whose identity differs from the one of the node before,
    [prev] standing before the first. *)
Fixpoint uniq_from (h : Heap) (prev : XMLNode) (l : list XMLNode) : list XMLNode :=
  match l with
  | [] => []
  | x :: l' =>
      if decide (getID h x = getID h prev) then uniq_from h x l'
      else x :: uniq_from h x l'
  end.

(** The nodes of [l] whose identity differs from the one of the node before. *)
Definition uniq (h : Heap) (l : list XMLNode) : list XMLNode :=
  match l with
  | [] => []
  | x :: l' => x :: uniq_from h x l'
  end.

(** The reads that make [Parse] take an identity. *)
Definition takes_id (r : xml.Read) : bool :=
  match xml.tok r with
  | xml.EndElement _ | xml.Directive _ => false
  | _ => true
  end.

(** The order of the identities, and a sort by it. *)
Definition id_le (h : Heap) : relation XMLNode :=
  λ a b, (id_of h a ≤ id_of h b)%Z.

#[global] Instance id_le_dec h a b : Decision (id_le h a b).
Proof. unfold id_le. apply _. Defined.

Definition sort_by_identity (h : Heap) : list XMLNode → list XMLNode :=
  merge_sort (id_le h).

(** The reads of a start-tag. *)
Definition starts (r : xml.Read) : bool :=
  match xml.tok r with
  | xml.StartElement _ _ => true
  | _ => false
  end.

(** A pointer to a document or an element of the heap. *)
Definition valid (h : Heap) (n : XMLNode) : Prop :=
  match n with
  | PtrXMLDocument d => d < length (documents h)
  | PtrElement p => p < length (elements h)
  | _ => False
  end.

(** The loop invariant of [Parse]: the stack holds pointers into the heap,
    and [cur] is its top. *)
Definition Inv (st : State) : Prop :=
  Forall (valid (heap st)) (eltstack st)
  ∧ last (eltstack st) = Some (cur st).

(** [e'] is [e] but for its children and its parent. *)
Definition same_fields (e e' : Element) : Prop :=
  ID e' = ID e ∧ Name e' = Name e ∧ Prefix e' = Prefix e
  ∧ Namespaces e' = Namespaces e ∧ attributes e' = attributes e
  ∧ Line e' = Line e ∧ Pos e' = Pos e.

(** Every element and document of [h] is in [h'], at the same address and
    with the same identity. *)
Definition Keeps (h h' : Heap) : Prop :=
  (∀ p e, elements h !! p = Some e →
          ∃ e', elements h' !! p = Some e' ∧ same_fields e e')
  ∧ (∀ d xr, documents h !! d = Some xr →
             ∃ xr', documents h' !! d = Some xr' ∧ doc_ID xr' = doc_ID xr).

End goxml_id_spec.

(** ** The documents the statements are tried on *)
Module goxml_documents.
Import goxml.

(** One order of ranging, the same for every element. *)
Definition any_order (p : nat) (m : gmap string string) : list (string * string) :=
  map_to_list m.

Definition nl : string := String (Ascii.ascii_of_nat 10) EmptyString.

Definition name (space local : string) : xml.Name :=
  {| xml.Space := space; xml.Local := local |}.

Definition attr (space local value : string) : xml.Attr :=
  {| xml.AName := name space local; xml.Value := value |}.

(** The tokens of <r xmlns:a="urn:a" a:x="1"/>. *)
Definition qualified_attribute : list xml.Token :=
  [ xml.StartElement (name EmptyString "r")
      [attr "xmlns" "a" "urn:a"; attr "urn:a" "x" "1"];
    xml.EndElement (name EmptyString "r") ].

(** The text [ToXML] writes for it, and the tokens of that text. *)
Definition qualified_attribute_text : string :=
  "<r xmlns:a=" +:+ dq +:+ "urn:a" +:+ dq +:+ " x=" +:+ dq +:+ "1" +:+ dq +:+ " />".

Definition qualified_attribute_again : list xml.Token :=
  [ xml.StartElement (name EmptyString "r")
      [attr "xmlns" "a" "urn:a"; attr EmptyString "x" "1"];
    xml.EndElement (name EmptyString "r") ].



(** The tokens of <?xml version="1.0"?>, newline, <!DOCTYPE r>, newline,
    <r/>. *)
Definition with_doctype : list xml.Token :=
  [ xml.ProcInst "xml" ("version=" +:+ dq +:+ "1.0" +:+ dq);
    xml.CharData nl;
    xml.Directive "DOCTYPE r";
    xml.CharData nl;
    xml.StartElement (name EmptyString "r") [];
    xml.EndElement (name EmptyString "r") ].

(** The tokens of <a:r xmlns:a="urn:x"><a:c/>t</a:r>. *)
Definition nested_namespace : list xml.Token :=
  [ xml.StartElement (name "urn:x" "r") [attr "xmlns" "a" "urn:x"];
    xml.StartElement (name "urn:x" "c") [];
    xml.EndElement (name "urn:x" "c");
    xml.CharData "t";
    xml.EndElement (name "urn:x" "r") ].

(** Two empty documents and an element that is in neither. *)
Definition two_documents : Heap :=
  {| elements := [NewElement];
     documents := [ {| doc_children := [] |}; {| doc_children := [] |} ] |}.

End goxml_documents.

Module goxml_id_documents.
Import goxml_id.

Definition read (t : xml.Token) (column : Z) : xml.Read :=
  {| xml.tok := t; xml.line := 1; xml.column := column |}.

(** The reads of <r>a<![CDATA[b]]></r>: the text and the CDATA section are
    two [CharData] tokens. *)
Definition text_and_cdata : xml.Decoder :=
  {| xml.reads :=
       [ read (xml.StartElement (goxml_documents.name EmptyString "r") []) 4;
         read (xml.CharData "a") 5;
         read (xml.CharData "b") 18;
         read (xml.EndElement (goxml_documents.name EmptyString "r")) 22 ];
     xml.final := xml.EOF |}.

(** An element that binds the prefix a. *)
Definition bound_prefix : Element :=
  {| ID := 0; Name := "e"; Prefix := EmptyString; Parent := None;
     Namespaces := {[ "a" := "urn:a" ]}; children := [];
     attributes := [ goxml_documents.attr "urn:a" "x" "1";
                     goxml_documents.attr EmptyString "y" "2" ];
     Line := 0; Pos := 0 |}.

Definition no_heap : Heap := {| elements := []; documents := [] |}.

Definition comment (id : Z) : XMLNode :=
  ValComment {| cmt_ID := id; cmt_Contents := EmptyString |}.

(** Nodes with the identities 3, 1, 1, 2, 3. *)
Definition five_nodes : list XMLNode :=
  [comment 3; comment 1; comment 1; comment 2; comment 3].

Definition two_attributes : Element :=
  {| ID := 0; Name := "e"; Prefix := EmptyString; Parent := None;
     Namespaces := ∅; children := [];
     attributes := [ goxml_documents.attr EmptyString "a" "1";
                     goxml_documents.attr EmptyString "b" "2" ];
     Line := 0; Pos := 0 |}.

End goxml_id_documents.

(** * Theorems about revision 1 *)
Module goxml_facts.
Import goxml goxml_spec.

(** ** Escaping *)

Lemma append_assoc (s1 s2 s3 : string) : (s1 +:+ s2) +:+ s3 = s1 +:+ s2 +:+ s3.
Proof.
  induction s1 as [|a s1 IH]; [reflexivity|].
  change (String a ((s1 +:+ s2) +:+ s3) = String a (s1 +:+ s2 +:+ s3)).
  by rewrite IH.
Qed.

Lemma prefix_one_byte (a b : Ascii.ascii) (s : string) :
  String.prefix (String a EmptyString) (String b s) = Ascii.eqb a b.
Proof.
  cbn [String.prefix]. destruct (ascii_dec a b) as [->|Hne].
  - rewrite Ascii.eqb_refl. by destruct s.
  - symmetry. by apply Ascii.eqb_neq.
Qed.

Lemma Replace_from_entity (b : Ascii.ascii) (s : string) :
  strings.Replace_from entitiesReplacer 0 (String b s) =
    (if Ascii.eqb b "&"%char then "&amp;"
     else if Ascii.eqb b "<"%char then "&lt;"
     else if Ascii.eqb b (Ascii.ascii_of_nat 34) then "&quot;"
     else String b EmptyString)
    +:+ strings.Replace_from entitiesReplacer 0 s.
Proof.
  unfold entitiesReplacer, dq.
  cbn [strings.Replace_from strings.lookup].
  rewrite !prefix_one_byte. cbn [String.eqb negb andb].
  rewrite !(Ascii.eqb_sym b).
  destruct (Ascii.eqb "&"%char b); [reflexivity|].
  destruct (Ascii.eqb "<"%char b); [reflexivity|].
  destruct (Ascii.eqb (Ascii.ascii_of_nat 34) b); reflexivity.
Qed.

Lemma escape_String (b : Ascii.ascii) (s : string) :
  escape (String b s) =
    (if Ascii.eqb b "&"%char then "&amp;"
     else if Ascii.eqb b "<"%char then "&lt;"
     else if Ascii.eqb b (Ascii.ascii_of_nat 34) then "&quot;"
     else String b EmptyString) +:+ escape s.
Proof. apply Replace_from_entity. Qed.

Lemma escape_app (s1 s2 : string) : escape (s1 +:+ s2) = escape s1 +:+ escape s2.
Proof.
  induction s1 as [|b s1 IH]; [reflexivity|].
  change (String b s1 +:+ s2) with (String b (s1 +:+ s2)).
  rewrite !escape_String, IH.
  by rewrite append_assoc.
Qed.

Section Escaping.
Variable range_ns : nat → gmap string string → list (string * string).

(** C8. Serializing character data is [escape]; it replaces each ampersand by
    &amp;, each < by &lt; and each double quote by &quot; and copies every
    other byte, among them > and the apostrophe; the text a<b&c, a double
    quote, d becomes a&lt;b&amp;c&quot;d. *)
Theorem CharData_escapes_three_characters :
  (∀ fuel h cd printed,
      toxml range_ns (S fuel) h (CharData cd) printed
      = Some (escape cd, printed, []))
  ∧ escape EmptyString = EmptyString
  ∧ (∀ s, escape (String "&"%char s) = "&amp;" +:+ escape s)
  ∧ (∀ s, escape (String "<"%char s) = "&lt;" +:+ escape s)
  ∧ (∀ s, escape (dq +:+ s) = "&quot;" +:+ escape s)
  ∧ (∀ b s, b ≠ "&"%char → b ≠ "<"%char → String b EmptyString ≠ dq →
            escape (String b s) = String b (escape s))
  ∧ (∀ s, escape (String ">"%char s) = String ">"%char (escape s))
  ∧ (∀ s, escape (String "'"%char s) = String "'"%char (escape s))
  ∧ (∀ s1 s2, escape (s1 +:+ s2) = escape s1 +:+ escape s2)
  ∧ escape ("a<b&c" +:+ dq +:+ "d") = "a&lt;b&amp;c&quot;d".
Proof.
  split; [reflexivity|]. split; [reflexivity|].
  split; [intros s; apply escape_String|].
  split; [intros s; apply escape_String|].
  split; [intros s; apply (escape_String (Ascii.ascii_of_nat 34))|].
  split.
  { intros b s H1 H2 H3. rewrite escape_String.
    destruct (Ascii.eqb_spec b "&"%char); [done|].
    destruct (Ascii.eqb_spec b "<"%char); [done|].
    destruct (Ascii.eqb_spec b (Ascii.ascii_of_nat 34)) as [->|]; [|reflexivity].
    by destruct H3. }
  split; [intros s; apply escape_String|].
  split; [intros s; apply escape_String|].
  split; [apply escape_app|reflexivity].
Qed.

End Escaping.

(** ** The heap after [Append] *)

Lemma Children_store_element h p e c :
  p < length (elements h) →
  Children (store_element h p e) c
  = if decide (c = PtrElement p) then children e else Children h c.
Proof.
  intros Hp. destruct c as [d|q| | |]; cbn; try by case_decide.
  case_decide as Hq; simplify_eq.
  - by rewrite list_lookup_insert_eq.
  - rewrite list_lookup_insert_ne; [done|congruence].
Qed.

Lemma Children_store_document h d xr c :
  d < length (documents h) →
  Children (store_document h d xr) c
  = if decide (c = PtrXMLDocument d) then doc_children xr else Children h c.
Proof.
  intros Hd. destruct c as [d'|q| | |]; cbn; try by case_decide.
  case_decide as Hq; simplify_eq.
  - by rewrite list_lookup_insert_eq.
  - rewrite list_lookup_insert_ne; [done|congruence].
Qed.

Lemma Children_set_Parent h q e c par :
  elements h !! q = Some e →
  Children (store_element h q (set_Parent e par)) c = Children h c.
Proof.
  intros He. rewrite Children_store_element by by eapply lookup_lt_Some.
  case_decide; simplify_eq; cbn; by rewrite ?He.
Qed.

(** What [Append] changes: the children of the receiver grow by [n], and when
    the receiver is a document and [n] an element, the [Parent] of [n] is the
    receiver; nothing else. *)
Lemma Append_effect h c n :
  valid h c →
  (∀ q, n = PtrElement q → q < length (elements h)) →
  ∃ h', Append h c n = Some h'
    ∧ length (elements h') = length (elements h)
    ∧ length (documents h') = length (documents h)
    ∧ (∀ c', Children h' c'
             = if decide (c' = c) then grown c (Children h c) n else Children h c')
    ∧ (∀ q e, elements h !! q = Some e →
         ∃ e', elements h' !! q = Some e'
           ∧ Name e' = Name e ∧ Prefix e' = Prefix e
           ∧ Namespaces e' = Namespaces e ∧ attributes e' = attributes e
           ∧ (Parent e' = Parent e
              ∨ (n = PtrElement q ∧ Parent e' = Some c
                 ∧ ∃ d, c = PtrXMLDocument d))).
Proof.
  intros Hc Hn. destruct c as [d|p| | |]; try done; cbn in Hc.
  - (* a document *)
    destruct (lookup_lt_is_Some_2 _ _ Hc) as [xr Hxr].
    unfold Append, XMLDocument_Append. rewrite Hxr. cbn [mbind option_bind].
    set (h1 := store_document h d _).
    assert (∀ c', Children h1 c'
      = if decide (c' = PtrXMLDocument d)
        then Children h (PtrXMLDocument d) ++ [n] else Children h c') as Hch.
    { intros c'. unfold h1. rewrite Children_store_document by done.
      case_decide; [|done]. cbn. by rewrite Hxr. }
    assert (length (documents h1) = length (documents h)) as Hlen.
    { unfold h1. cbn. by rewrite length_insert. }
    assert ((∀ q, n ≠ PtrElement q) ∨ (∃ q, n = PtrElement q)) as [Hleaf|[q ->]].
    { destruct n; eauto; by left. }
    + exists h1. split; [by destruct n; try done; by destruct (Hleaf p)|].
      do 3 (split; [done|]).
      intros q e He; exists e; by eauto 10.
    + unfold setParent.
      destruct (lookup_lt_is_Some_2 (elements h) q) as [eq Heq]; [by apply Hn|].
      change (elements h1) with (elements h). rewrite Heq. cbn [mbind option_bind].
      eexists; split; [done|].
      split; [cbn; by rewrite length_insert|]. split; [done|].
      split.
      { intros c'. rewrite <-Hch. by apply Children_set_Parent. }
      intros q' e He. cbn [elements store_element].
      destruct (decide (q' = q)) as [->|Hne].
      * rewrite list_lookup_insert_eq by by eapply lookup_lt_Some.
        simplify_eq. eexists; split; [done|]. cbn. eauto 10.
      * rewrite list_lookup_insert_ne by done. exists e. eauto 10.
  - (* an element *)
    destruct (lookup_lt_is_Some_2 _ _ Hc) as [elt Helt].
    unfold Append, Element_Append. rewrite Helt. cbn [mbind option_bind].
    eexists; split; [done|].
    split; [cbn; by rewrite length_insert|]. split; [done|].
    split.
    { intros c'. rewrite Children_store_element by done.
      case_decide; [|done]. cbn. by rewrite Helt. }
    intros q e He. cbn [elements store_element].
    destruct (decide (q = p)) as [->|Hne].
    + rewrite list_lookup_insert_eq by done. simplify_eq.
      eexists; split; [done|]. cbn. eauto 10.
    + rewrite list_lookup_insert_ne by done. exists e. eauto 10.
Qed.

(** ** The children slice after [Append] *)

Lemma append_child_cases cs n :
  (append_child cs n = cs ++ [n]
   ∧ ∀ cd str, n = CharData cd → last cs ≠ Some (CharData str))
  ∨ (∃ pre str cd, n = CharData cd ∧ cs = pre ++ [CharData str]
       ∧ append_child cs n = pre ++ [CharData (str +:+ cd)]).
Proof.
  destruct n as [d|q|cd|cmt|t i]; try (left; split; [done|congruence]).
  unfold append_child. destruct (last cs) as [[d|q|str|cmt|t i]|] eqn:Hlast;
    try (left; split; [done|congruence]).
  right. apply last_Some in Hlast as [pre ->]. exists pre, str, cd.
  split; [done|]. split; [done|].
  rewrite length_app. cbn [length].
  rewrite insert_app_r_alt by lia.
  replace (length pre + 1 - 1 - length pre) with 0 by lia. done.
Qed.

Lemma grown_cases c cs n :
  grown c cs n = cs ++ [n]
  ∨ (∃ pre str cd, n = CharData cd ∧ cs = pre ++ [CharData str]
       ∧ grown c cs n = pre ++ [CharData (str +:+ cd)]).
Proof.
  destruct c; cbn; try by left.
  destruct (append_child_cases cs n) as [[Heq _]|Hm]; [by left|by right].
Qed.

Lemma elem_of_grown c cs n x :
  (∀ s, x ≠ CharData s) → x ∈ grown c cs n ↔ x ∈ cs ∨ x = n.
Proof.
  intros Hx. destruct (grown_cases c cs n) as [->|(pre&str&cd&->&->&->)].
  - rewrite elem_of_app, list_elem_of_singleton. done.
  - rewrite !elem_of_app, !list_elem_of_singleton. naive_solver.
Qed.

Lemma elem_ptrs_grown c cs n :
  elem_ptrs (grown c cs n) = elem_ptrs cs ++ elem_ptrs [n].
Proof.
  unfold elem_ptrs.
  destruct (grown_cases c cs n) as [->|(pre&str&cd&->&->&->)].
  - by rewrite omap_app.
  - rewrite !omap_app. cbn. by rewrite !app_nil_r.
Qed.

Lemma adjacent_CharData_snoc cs n :
  adjacent_CharData (cs ++ [n])
  = adjacent_CharData cs
    || match n, last cs with
       | CharData _, Some (CharData _) => true
       | _, _ => false
       end.
Proof.
  induction cs as [|c1 cs IH]; [by destruct n|].
  destruct cs as [|c2 cs].
  - by destruct c1, n.
  - change ((c1 :: c2 :: cs) ++ [n]) with (c1 :: (c2 :: cs) ++ [n]).
    change (last (c1 :: c2 :: cs)) with (last (c2 :: cs)).
    change (adjacent_CharData (c1 :: (c2 :: cs) ++ [n]))
      with (match c1, c2 with
            | CharData _, CharData _ => true
            | _, _ => adjacent_CharData ((c2 :: cs) ++ [n])
            end).
    change (adjacent_CharData (c1 :: c2 :: cs))
      with (match c1, c2 with
            | CharData _, CharData _ => true
            | _, _ => adjacent_CharData (c2 :: cs)
            end).
    rewrite IH. by destruct c1, c2.
Qed.

Lemma adjacent_CharData_append_child cs n :
  adjacent_CharData (append_child cs n) = adjacent_CharData cs.
Proof.
  destruct (append_child_cases cs n) as [[-> Hn]|(pre&str&cd&->&->&->)].
  - rewrite adjacent_CharData_snoc.
    destruct n as [| |cd| |]; try by rewrite orb_false_r.
    destruct (last cs) as [[| |str| |]|]; try by rewrite orb_false_r.
    by destruct (Hn cd str).
  - rewrite !adjacent_CharData_snoc. done.
Qed.

(** ** The invariant of the heap *)

Lemma Grows_valid h h' c n x : Grows h h' c n → valid h x → valid h' x.
Proof.
  intros (_&Hd&_&_&Hlen) Hx. destruct x; cbn in *; try done; [lia|].
  destruct Hlen as [(->&_)|(->&_)]; lia.
Qed.

Lemma HInv_Grows h h' c n : HInv h → Grows h h' c n → HInv h'.
Proof.
  intros [Hchild Hparent Honce Hord Hnodoc Hcoal] HG.
  pose proof HG as (Hc&Hdocs&Hch&Held&Hnew).
  assert (∀ q, PtrElement q ∈ Children h c → q < length (elements h)) as Hlt.
  { intros q [e [He _]]%Hchild. by eapply lookup_lt_Some. }
  split.
  - (* inv_child *)
    intros c' q. rewrite Hch. case_decide as Hcc; [subst c'|].
    + rewrite elem_of_grown by done. intros [Hin|Hq].
      * destruct (Hchild _ _ Hin) as (e&He&HP).
        destruct (Held _ _ He) as (e'&He'&HP'). exists e'. by rewrite HP'.
      * destruct Hnew as [(_&Hleaf&_)|(_&->&e'&He'&HP')]; [by destruct (Hleaf q)|].
        simplify_eq. by exists e'.
    + intros Hin. destruct (Hchild _ _ Hin) as (e&He&HP).
      destruct (Held _ _ He) as (e'&He'&HP'). exists e'. by rewrite HP'.
  - (* inv_parent *)
    intros q e' He'.
    assert (q < length (elements h)
            ∨ (q = length (elements h) ∧ n = PtrElement q ∧ Parent e' = Some c))
      as [Hq|(->&Hn&HP)].
    { pose proof (lookup_lt_Some _ _ _ He') as Hq.
      destruct Hnew as [(Hl&_)|(Hl&->&e2&He2&HP2)]; [left; lia|].
      destruct (decide (q = length (elements h))) as [->|]; [|left; lia].
      right. by simplify_eq. }
    + destruct (lookup_lt_is_Some_2 _ _ Hq) as [e He].
      destruct (Held _ _ He) as (e2&He2&HP2). simplify_eq.
      destruct (Hparent _ _ He) as (c0&HP&Hv&Hin).
      exists c0. split; [congruence|]. split; [by eapply Grows_valid|].
      rewrite Hch. case_decide; [subst c0|done].
      rewrite elem_of_grown by done. by left.
    + exists c. split; [done|]. split; [by eapply Grows_valid|].
      rewrite Hch, decide_True by done. rewrite elem_of_grown by done. by right.
  - (* inv_once *)
    intros c'. rewrite Hch. case_decide; [subst c'|done].
    rewrite elem_ptrs_grown.
    destruct Hnew as [(_&Hleaf&_)|(_&->&_)].
    + replace (elem_ptrs [n]) with (@nil nat); [by rewrite app_nil_r|].
      destruct n; try done. by destruct (Hleaf p).
    + cbn. apply NoDup_app. split; [done|]. split; [|apply NoDup_singleton].
      intros q Hq ->%list_elem_of_singleton.
      assert (PtrElement (length (elements h)) ∈ Children h c) as Hin.
      { unfold elem_ptrs in Hq. apply list_elem_of_omap in Hq as (x&Hx&Hxq).
        destruct x; by simplify_eq. }
      apply Hlt in Hin. lia.
  - (* inv_ordered *)
    intros p q. rewrite Hch. case_decide; [subst c|by apply Hord].
    rewrite elem_of_grown by done. intros [Hin|Hq]; [by apply Hord|].
    destruct Hnew as [(_&Hleaf&_)|(_&->&_)]; [by destruct (Hleaf q)|].
    simplify_eq. done.
  - (* inv_nodoc *)
    intros c' d. rewrite Hch. case_decide; [subst c'|by apply Hnodoc].
    rewrite elem_of_grown by done. intros [Hin|Hq]; [by eapply Hnodoc|].
    destruct Hnew as [(_&_&Hleaf)|(_&->&_)]; [by destruct (Hleaf d)|done].
  - (* inv_coalesced *)
    intros p. rewrite Hch. case_decide; [subst c|by apply Hcoal].
    cbn [grown]. rewrite adjacent_CharData_append_child. apply Hcoal.
Qed.

Lemma Grows_leaf h c n :
  valid h c → (∀ q, n ≠ PtrElement q) → (∀ d, n ≠ PtrXMLDocument d) →
  ∃ h', Append h c n = Some h' ∧ Grows h h' c n.
Proof.
  intros Hc Hq Hd.
  destruct (Append_effect h c n Hc) as (h'&HA&Hle&Hld&Hch&Hel).
  { intros q ->. by destruct (Hq q). }
  exists h'. split; [done|]. split; [done|]. split; [done|]. split; [done|].
  split; [|by left].
  intros q e He. destruct (Hel _ _ He) as (e'&He'&_&_&_&_&[HP|(->&_)]).
  - by exists e'.
  - by destruct (Hq q).
Qed.

Lemma Children_new_element h tmp c :
  children tmp = [] → Children (new_element h tmp).2 c = Children h c.
Proof.
  intros Htmp. destruct c as [d|p| | |]; try done. cbn.
  destruct (decide (p < length (elements h))) as [Hp|Hp].
  - by rewrite lookup_app_l.
  - rewrite (lookup_ge_None_2 (elements h)) by lia.
    destruct (decide (p = length (elements h))) as [->|].
    + rewrite list_lookup_middle by done. cbn. by rewrite Htmp.
    + rewrite lookup_ge_None_2; [done|]. rewrite length_app. cbn. lia.
Qed.

Lemma Grows_start h c tmp :
  valid h c → Parent tmp = Some c → children tmp = [] →
  ∃ h' e', Append (new_element h tmp).2 c (PtrElement (length (elements h))) = Some h'
    ∧ Grows h h' c (PtrElement (length (elements h)))
    ∧ elements h' !! length (elements h) = Some e'
    ∧ Name e' = Name tmp ∧ Prefix e' = Prefix tmp
    ∧ Namespaces e' = Namespaces tmp ∧ attributes e' = attributes tmp.
Proof.
  intros Hc HP Hcs.
  set (h1 := (new_element h tmp).2).
  assert (length (elements h1) = S (length (elements h))) as Hlen1.
  { unfold h1. cbn. rewrite length_app. cbn. lia. }
  assert (valid h1 c) as Hc1.
  { destruct c; cbn in *; try done. lia. }
  destruct (Append_effect h1 c (PtrElement (length (elements h))) Hc1)
    as (h'&HA&Hle&Hld&Hch&Hel).
  { intros q [= <-]. lia. }
  assert (elements h1 !! length (elements h) = Some tmp) as Htmp.
  { unfold h1. cbn. by rewrite list_lookup_middle. }
  destruct (Hel _ _ Htmp) as (e'&He'&HN&HPf&HNs&Hat&HPar).
  exists h', e'. split; [done|]. split; [|done].
  split; [done|]. split; [done|]. split.
  { intros c'. rewrite Hch. unfold h1. by rewrite !Children_new_element. }
  split.
  { intros q e He.
    assert (elements h1 !! q = Some e) as He1.
    { unfold h1. cbn. rewrite lookup_app_l; [done|]. by eapply lookup_lt_Some. }
    destruct (Hel _ _ He1) as (e2&He2&_&_&_&_&[HP2|([= <-]&_)]).
    - by exists e2.
    - apply lookup_lt_Some in He. lia. }
  right. split; [lia|]. split; [done|]. exists e'. split; [done|].
  destruct HPar as [->|(_&->&_)]; done.
Qed.

Lemma Extends_refl h : Extends h h.
Proof. intros q e He. by exists e. Qed.

Lemma Extends_trans h1 h2 h3 : Extends h1 h2 → Extends h2 h3 → Extends h1 h3.
Proof.
  intros H12 H23 q e He. destruct (H12 _ _ He) as (e2&He2&HP2).
  destruct (H23 _ _ He2) as (e3&He3&HP3). exists e3. split; [done|congruence].
Qed.

Lemma Grows_Extends h h' c n : Grows h h' c n → Extends h h'.
Proof. by intros (_&_&_&H&_). Qed.

Lemma Inv_cur_valid st : Inv st → valid (heap st) (cur st).
Proof.
  intros [_ _ Hst Hcur]. apply last_Some in Hcur as [pre Hpre].
  rewrite Hpre in Hst. apply Forall_app in Hst as [_ Hst].
  by rewrite Forall_singleton in Hst.
Qed.

Lemma elem_of_elem_ptrs cs q : q ∈ elem_ptrs cs ↔ PtrElement q ∈ cs.
Proof.
  unfold elem_ptrs. rewrite list_elem_of_omap. split.
  - intros (x&Hx&Hxq). destruct x; by simplify_eq.
  - intros Hq. by exists (PtrElement q).
Qed.

Lemma filter_absent (cs : list XMLNode) x :
  x ∉ cs → filter (λ n, n = x) cs = [].
Proof.
  induction cs as [|y cs IH]; [done|]. intros Hx.
  apply not_elem_of_cons in Hx as [Hxy Hx].
  rewrite filter_cons_False by congruence. by apply IH.
Qed.

Lemma once_among cs q :
  NoDup (elem_ptrs cs) → PtrElement q ∈ cs →
  length (filter (λ n, n = PtrElement q) cs) = 1.
Proof.
  induction cs as [|x cs IH]; [by intros _ ?%elem_of_nil|].
  intros Hnd Hin. destruct (decide (x = PtrElement q)) as [->|Hx].
  - rewrite filter_cons_True by done. cbn. f_equal.
    cbn in Hnd. apply NoDup_cons in Hnd as [Hq _].
    rewrite elem_of_elem_ptrs in Hq.
    by rewrite filter_absent.
  - rewrite filter_cons_False by done. apply IH.
    + destruct x; cbn in Hnd; try done. by apply NoDup_cons in Hnd as [_ ?].
    + apply elem_of_cons in Hin as [?|?]; [congruence|done].
Qed.

Section Builder.
Variable range_ns : nat → gmap string string → list (string * string).

Lemma inherited_valid h c : valid h c → is_Some (inherited range_ns h c).
Proof.
  destruct c as [d|p| | |]; cbn; try done.
  intros [e ->]%lookup_lt_is_Some_2. by eexists.
Qed.

Lemma Inv_init : Inv init.
Proof.
  split; cbn; try done.
  - split.
    + intros [[|d]|p| | |] q; cbn; by intros ?%elem_of_nil.
    + intros q e ?. by destruct q.
    + intros [[|d]|p| | |]; cbn; apply NoDup_nil_2.
    + intros p q. cbn. by intros ?%elem_of_nil.
    + intros [[|d]|p| | |] d'; cbn; by intros ?%elem_of_nil.
    + done.
  - apply Forall_singleton. cbn. lia.
Qed.

Lemma Inv_Grows st h' n :
  Inv st → Grows (heap st) h' (cur st) n →
  Inv {| heap := h'; cur := cur st; eltstack := eltstack st |}.
Proof.
  intros HI HG. pose proof HI as [Hh Hd Hst Hcur]. split; cbn.
  - by eapply HInv_Grows.
  - destruct HG as (_&->&_). done.
  - eapply Forall_impl; [done|]. intros x. by eapply Grows_valid.
  - done.
Qed.

(** One pass of the loop: it panics exactly on an end-tag met with fewer than
    two entries on the stack, and otherwise keeps the invariant. *)
Lemma step_spec st t :
  Inv st →
  match t with
  | xml.EndElement _ =>
      if decide (length (eltstack st) < 2) then step range_ns st t = None
      else ∃ st', step range_ns st t = Some st' ∧ Inv st'
             ∧ heap st' = heap st
             ∧ length (eltstack st') = length (eltstack st) - 1
  | xml.StartElement _ _ =>
      ∃ st', step range_ns st t = Some st' ∧ Inv st'
        ∧ Extends (heap st) (heap st')
        ∧ length (eltstack st') = S (length (eltstack st))
        ∧ cur st' = PtrElement (length (elements (heap st)))
        ∧ ∃ e, elements (heap st') !! length (elements (heap st)) = Some e
               ∧ Parent e = Some (cur st)
  | _ =>
      ∃ st', step range_ns st t = Some st' ∧ Inv st'
        ∧ Extends (heap st) (heap st')
        ∧ eltstack st' = eltstack st
  end.
Proof.
  intros HI. pose proof (Inv_cur_valid _ HI) as Hc.
  destruct t as [v_Name v_Attr|v_Name|v|v|target inst|v].
  - (* StartElement *)
    unfold step. destruct (inherited_valid _ _ Hc) as [ns0 ->].
    cbn [mbind option_bind]. cbv zeta.
    set (tmp := Build_Element _ _ _ _ _ _).
    change ((new_element (heap st) tmp).1) with (length (elements (heap st))).
    destruct (Grows_start (heap st) (cur st) tmp Hc) as (h'&e'&->&HG&He'&_);
      [done..|].
    cbn [mbind option_bind]. eexists. split; [done|].
    split; [|split; [by eapply Grows_Extends|]; split;
              [cbn; rewrite length_app; cbn; lia|]; split; [done|];
              destruct HG as (_&_&_&_&Hnew);
              destruct Hnew as [(_&Hq&_)|(_&_&e2&He2&HP2)];
              [by destruct (Hq (length (elements (heap st))))|by exists e2]].
    pose proof HI as [Hh Hd Hst Hcur]. split; cbn.
    + by eapply HInv_Grows.
    + destruct HG as (_&->&_). done.
    + apply Forall_app. split.
      * eapply Forall_impl; [done|]. intros x. by eapply Grows_valid.
      * apply Forall_singleton. cbn. by eapply lookup_lt_Some.
    + by rewrite last_snoc.
  - (* EndElement *)
    unfold step. case_decide as Hlen; [done|].
    destruct (lookup_lt_is_Some_2 (eltstack st) (length (eltstack st) - 2))
      as [c Hcl]; [lia|].
    rewrite Hcl. cbn [mbind option_bind]. eexists. split; [done|].
    split; [|split; [done|cbn; rewrite length_take; lia]].
    pose proof HI as [Hh Hd Hst Hcur]. split; cbn; [done|done|..].
    + by apply Forall_take.
    + rewrite last_lookup, length_take.
      rewrite lookup_take_lt by lia. rewrite <-Hcl. f_equal. lia.
  - (* CharData *)
    destruct (Grows_leaf (heap st) (cur st) (CharData v) Hc) as (h'&HA&HG);
      [done..|].
    unfold step. rewrite HA. cbn [mbind option_bind]. eexists. split; [done|].
    split; [by eapply Inv_Grows|]. split; [by eapply Grows_Extends|done].
  - (* Comment *)
    destruct (Grows_leaf (heap st) (cur st) (Comment v) Hc) as (h'&HA&HG);
      [done..|].
    unfold step. rewrite HA. cbn [mbind option_bind]. eexists. split; [done|].
    split; [by eapply Inv_Grows|]. split; [by eapply Grows_Extends|done].
  - (* ProcInst *)
    destruct (Grows_leaf (heap st) (cur st) (ProcInst target inst) Hc)
      as (h'&HA&HG); [done..|].
    unfold step. rewrite HA. cbn [mbind option_bind]. eexists. split; [done|].
    split; [by eapply Inv_Grows|]. split; [by eapply Grows_Extends|done].
  - (* Directive *)
    exists st. split; [done|]. split; [done|]. split; [apply Extends_refl|done].
Qed.

Lemma Inv_stack_nonempty st : Inv st → (1 ≤ length (eltstack st))%nat.
Proof.
  intros [_ _ _ Hcur]. destruct (eltstack st); [done|cbn; lia].
Qed.

(** The whole loop: it panics exactly when some end-tag is met while only the
    document is on the stack. *)
Lemma run_spec toks : ∀ st,
  Inv st →
  if nesting (length (eltstack st) - 1) toks
  then ∃ st', run range_ns st toks = Some st' ∧ Inv st'
         ∧ Extends (heap st) (heap st')
         ∧ length (eltstack st') = S (open_after (length (eltstack st) - 1) toks)
  else run range_ns st toks = None.
Proof.
  induction toks as [|t toks IH]; intros st HI.
  { cbn. exists st. split; [done|]. split; [done|]. split; [apply Extends_refl|].
    pose proof (Inv_stack_nonempty _ HI). lia. }
  pose proof (Inv_stack_nonempty _ HI) as Hne.
  pose proof (step_spec st t HI) as Hstep.
  destruct t as [v_Name v_Attr|v_Name|v|v|target inst|v];
    cbn [nesting open_after run].
  - destruct Hstep as (st1&->&HI1&Hext&Hlen&_). cbn [mbind option_bind].
    specialize (IH st1 HI1).
    replace (length (eltstack st1) - 1) with (S (length (eltstack st) - 1))
      in IH by lia.
    destruct (nesting _ toks); [|done].
    destruct IH as (st'&?&?&?&?). exists st'.
    split; [done|]. split; [done|]. split; [by eapply Extends_trans|done].
  - case_decide as Hlen.
    + replace (length (eltstack st) - 1) with 0 by lia. by rewrite Hstep.
    + destruct Hstep as (st1&->&HI1&Hheap&Hlen1). cbn [mbind option_bind].
      specialize (IH st1 HI1).
      destruct (length (eltstack st) - 1) as [|k] eqn:Hk; [lia|].
      replace (length (eltstack st1) - 1) with k in IH by lia.
      replace (S k - 1) with k by lia.
      destruct (nesting _ toks); [|done].
      destruct IH as (st'&?&?&?&?). exists st'.
      split; [done|]. split; [done|]. split; [by rewrite <-Hheap|done].
  - destruct Hstep as (st1&->&HI1&Hext&Hlen). cbn [mbind option_bind].
    specialize (IH st1 HI1). rewrite Hlen in IH.
    destruct (nesting _ toks); [|done].
    destruct IH as (st'&?&?&?&?). exists st'.
    split; [done|]. split; [done|]. split; [by eapply Extends_trans|done].
  - destruct Hstep as (st1&->&HI1&Hext&Hlen). cbn [mbind option_bind].
    specialize (IH st1 HI1). rewrite Hlen in IH.
    destruct (nesting _ toks); [|done].
    destruct IH as (st'&?&?&?&?). exists st'.
    split; [done|]. split; [done|]. split; [by eapply Extends_trans|done].
  - destruct Hstep as (st1&->&HI1&Hext&Hlen). cbn [mbind option_bind].
    specialize (IH st1 HI1). rewrite Hlen in IH.
    destruct (nesting _ toks); [|done].
    destruct IH as (st'&?&?&?&?). exists st'.
    split; [done|]. split; [done|]. split; [by eapply Extends_trans|done].
  - destruct Hstep as (st1&->&HI1&Hext&Hlen). cbn [mbind option_bind].
    specialize (IH st1 HI1). rewrite Hlen in IH.
    destruct (nesting _ toks); [|done].
    destruct IH as (st'&?&?&?&?). exists st'.
    split; [done|]. split; [done|]. split; [by eapply Extends_trans|done].
Qed.

Lemma run_Inv toks st : run range_ns init toks = Some st → Inv st.
Proof.
  intros Hrun. pose proof (run_spec toks init Inv_init) as H.
  destruct (nesting _ toks); [|congruence].
  destruct H as (st'&?&?&_). congruence.
Qed.

Lemma tokens_NewDecoder toks e : tokens (xml.NewDecoder toks e) = toks.
Proof.
  unfold tokens, xml.NewDecoder. cbn. rewrite <-list_fmap_compose.
  by rewrite list_fmap_id.
Qed.







(** C5 (amended). In a tree built by [Parse] every element has exactly one
    parent: its [Parent] is set when the element is created, to the node it is
    appended to; the element stands once among the children of that node and
    among the children of no other node; and [Parse] never changes the
    [Parent] afterwards.  [XMLDocument.Append] sets the [Parent] of an element
    it receives to the document (and so overwrites an earlier one); on a
    [CharData], [Comment] or [ProcInst], which have no back-reference,
    [setParent] does nothing. *)
Theorem Parse_gives_one_parent toks1 toks2 st1 st2 :
  run range_ns init toks1 = Some st1 →
  run range_ns st1 toks2 = Some st2 →
  (∀ q e, elements (heap st1) !! q = Some e →
     ∃ c, Parent e = Some c ∧ valid (heap st1) c
       ∧ length (filter (λ n, n = PtrElement q) (Children (heap st1) c)) = 1
       ∧ (∀ c', PtrElement q ∈ Children (heap st1) c' → c' = c)
       ∧ ∃ e', elements (heap st2) !! q = Some e' ∧ Parent e' = Some c)
  ∧ (∀ name attr st',
       step range_ns st1 (xml.StartElement name attr) = Some st' →
       ∃ e, elements (heap st') !! length (elements (heap st1)) = Some e
         ∧ Parent e = Some (cur st1)
         ∧ PtrElement (length (elements (heap st1)))
             ∈ Children (heap st') (cur st1))
  ∧ (∀ h d q h',
       XMLDocument_Append h d (PtrElement q) = Some h' →
       ∃ e, elements h' !! q = Some e ∧ Parent e = Some (PtrXMLDocument d))
  ∧ (∀ h n par, (∀ q, n ≠ PtrElement q) → setParent h n par = Some h).
Proof.
  intros Hrun1 Hrun2. pose proof (run_Inv _ _ Hrun1) as HI1.
  split; [|split; [|split]]; [| | |by intros h [d|q| | |] par Hn;
                                    [|destruct (Hn q)|..]].
  - intros q e He.
    destruct (inv_parent _ (inv_heap _ HI1) _ _ He) as (c&HP&Hv&Hin).
    exists c. split; [done|]. split; [done|].
    split; [apply once_among; [apply (inv_once _ (inv_heap _ HI1))|done]|].
    split.
    + intros c' Hin'.
      destruct (inv_child _ (inv_heap _ HI1) _ _ Hin') as (e2&He2&HP2).
      congruence.
    + pose proof (run_spec toks2 st1 HI1) as H.
      destruct (nesting _ toks2); [|congruence].
      destruct H as (st'&Hrun&_&Hext&_). simplify_eq.
      destruct (Hext _ _ He) as (e'&He'&HP'). exists e'. split; [done|congruence].
  - intros name attr st' Hstep.
    pose proof (step_spec st1 (xml.StartElement name attr) HI1)
      as (st2'&Hstep'&HI'&_&_&_&e&He&HP).
    simplify_eq. exists e. split; [done|]. split; [done|].
    destruct (inv_parent _ (inv_heap _ HI') _ _ He) as (c&HP'&_&Hin).
    congruence.
  - intros h d q h'. unfold XMLDocument_Append, setParent.
    destruct (documents h !! d) as [xr|]; [|done]. cbn.
    destruct (elements h !! q) as [e|] eqn:He; [|done]. cbn. intros [= <-].
    eexists. cbn. rewrite list_lookup_insert_eq by by eapply lookup_lt_Some.
    done.
Qed.

(** In a tree built by [Parse] the text below an element is merged: no two
    [CharData] children of an element stand next to each other. *)
Lemma Element_children_coalesced toks st p :
  run range_ns init toks = Some st →
  adjacent_CharData (Children (heap st) (PtrElement p)) = false.
Proof. intros Hrun. apply (run_Inv _ _ Hrun). Qed.

End Builder.

(** ** First uses *)

Section FirstUses.
Context {A : Type} (key : A → string).

Lemma first_uses_keys printed l k :
  k ∈ (key <$> first_uses key printed l) ↔ (k ∉ printed) ∧ k ∈ (key <$> l).
Proof.
  revert printed. induction l as [|x l IH]; intros printed; cbn.
  { split; [by intros ?%elem_of_nil|by intros [_ ?%elem_of_nil]]. }
  case_decide as Hx.
  - rewrite IH, elem_of_cons. split; [intros [? ?]; by auto|].
    intros [Hk [->|?]]; done.
  - cbn. rewrite !elem_of_cons, IH. split.
    + intros [->|[Hk ?]]; [by auto|]. split; [set_solver|by auto].
    + intros [Hk [->|?]]; [by left|]. destruct (decide (k = key x)); [by left|].
      right. split; [set_solver|done].
Qed.

Lemma first_uses_NoDup printed l : NoDup (key <$> first_uses key printed l).
Proof.
  revert printed. induction l as [|x l IH]; intros printed; cbn.
  { apply NoDup_nil_2. }
  case_decide as Hx; [apply IH|].
  cbn. apply NoDup_cons. split; [|apply IH].
  rewrite first_uses_keys. set_solver.
Qed.

Lemma first_uses_app printed l1 l2 :
  first_uses key printed (l1 ++ l2)
  = first_uses key printed l1
    ++ first_uses key
         (printed ∪ list_to_set (key <$> first_uses key printed l1)) l2.
Proof.
  revert printed. induction l1 as [|x l1 IH]; intros printed; cbn.
  { f_equal. set_solver. }
  case_decide as Hx; [apply IH|].
  cbn. f_equal. rewrite IH. do 2 f_equal. set_solver.
Qed.

(** An entry that is kept is the first one of its key. *)
Lemma first_uses_first printed l x :
  x ∈ first_uses key printed l →
  ∃ l1 l2, l = l1 ++ x :: l2 ∧ (key x ∉ printed) ∧ (key x ∉ (key <$> l1)).
Proof.
  revert printed. induction l as [|y l IH]; intros printed; cbn.
  { by intros ?%elem_of_nil. }
  case_decide as Hy.
  - intros (l1&l2&->&Hp&Hl1)%IH. exists (y :: l1), l2.
    split; [done|]. split; [done|].
    cbn. rewrite not_elem_of_cons. split; [|done]. congruence.
  - intros [->|Hin]%elem_of_cons.
    + exists [], l. split; [done|]. split; [done|]. cbn. apply not_elem_of_nil.
    + apply IH in Hin as (l1&l2&->&Hp&Hl1). exists (y :: l1), l2.
      split; [done|]. split; [set_solver|].
      cbn. rewrite not_elem_of_cons. split; [set_solver|done].
Qed.

Lemma first_uses_elem_of printed l x :
  x ∈ first_uses key printed l → x ∈ l ∧ key x ∉ printed.
Proof.
  intros (l1&l2&->&Hp&_)%first_uses_first. split; [|done].
  apply elem_of_app. right. by left.
Qed.

End FirstUses.

Lemma first_uses_fmap {A B} (f : A → B) (key : B → string) printed l :
  first_uses key printed (f <$> l) = f <$> first_uses (key ∘ f) printed l.
Proof.
  revert printed. induction l as [|x l IH]; intros printed; cbn; [done|].
  case_decide; [apply IH|]. cbn. by rewrite IH.
Qed.

Lemma foldl_print_ns bindings : ∀ printed acc,
  foldl print_ns (printed, acc) bindings
  = (printed ∪ list_to_set (snd <$> first_uses snd printed bindings),
     acc ++ first_uses snd printed bindings).
Proof.
  induction bindings as [|kv bindings IH]; intros printed acc; cbn.
  { rewrite app_nil_r. f_equal. set_solver. }
  unfold print_ns at 2. cbn [fst snd]. case_decide as Hkv.
  - apply IH.
  - rewrite IH. cbn. rewrite <-app_assoc. cbn. f_equal. set_solver.
Qed.

(** ** The declarations written by [toxml] *)

Section Serializer.
Variable range_ns : nat → gmap string string → list (string * string).

(** *** The text [toxml] writes, and the declarations in it *)

Lemma fmt_ns_declaration kv : fmt_ns kv = declaration kv.
Proof.
  destruct kv as [k u]. unfold fmt_ns, declaration. cbn [fst snd].
  case_decide as Hk; [by subst k|]. by destruct k.
Qed.

Lemma own_bindings_Some h p elt :
  elements h !! p = Some elt →
  own_bindings range_ns h p = range_ns p (Namespaces elt).
Proof. intros He. unfold own_bindings. by rewrite He. Qed.

Lemma plan_of_app h v1 : ∀ printed v2,
  plan_of range_ns h printed (v1 ++ v2)
  = plan_of range_ns h printed v1
    ++ plan_of range_ns h
         (printed ∪ list_to_set (snd <$> mjoin (plan_of range_ns h printed v1)))
         v2.
Proof.
  induction v1 as [|p v1 IH]; intros printed v2; cbn [app plan_of].
  { cbn. f_equal. set_solver. }
  cbv zeta. rewrite IH. cbn [app]. f_equal. f_equal. f_equal.
  cbn. rewrite fmap_app, list_to_set_app_L. set_solver.
Qed.

Lemma length_plan_of h vis : ∀ printed,
  length (plan_of range_ns h printed vis) = length vis.
Proof. induction vis as [|p vis IH]; intros printed; cbn; [done|]. by rewrite IH. Qed.

Lemma toxml_children_text h rec trec prec cs :
  (∀ c printed r, rec c printed = Some r →
     ∃ vis, prec c = Some vis
       ∧ r.1.2 = printed
                 ∪ list_to_set (snd <$> mjoin (plan_of range_ns h printed vis))
       ∧ ∀ rest, trec c (plan_of range_ns h printed vis ++ rest)
                 = Some (r.1.1, rest)) →
  ∀ printed r, toxml_children rec cs printed = Some r →
    ∃ vis, preorder_children prec cs = Some vis
      ∧ r.1.2 = printed
                ∪ list_to_set (snd <$> mjoin (plan_of range_ns h printed vis))
      ∧ ∀ rest, text_children trec cs (plan_of range_ns h printed vis ++ rest)
                = Some (r.1.1, rest).
Proof.
  intros Hrec. induction cs as [|c cs IH]; intros printed r; cbn.
  { intros [= <-]. exists []. split; [done|]. split; [cbn; set_solver|done]. }
  destruct (rec c printed) as [r1|] eqn:Hr1; [|done]. cbn.
  destruct (toxml_children rec cs r1.1.2) as [r2|] eqn:Hr2; [|done]. cbn.
  intros [= <-].
  destruct (Hrec _ _ _ Hr1) as (vis1&->&Hp1&Ht1).
  destruct (IH _ _ Hr2) as (vis2&->&Hp2&Ht2). cbn.
  exists (vis1 ++ vis2). split; [done|]. rewrite plan_of_app, <-Hp1.
  split.
  - rewrite Hp2, Hp1, join_app, fmap_app, list_to_set_app_L. set_solver.
  - intros rest. rewrite <-app_assoc, Ht1. cbn. by rewrite Ht2.
Qed.

(** [toxml] writes the text of the description, every element it goes
    through declaring those of its bindings whose URI has not been declared
    before in the call, and leaves in the printed set what it met there and
    what it declared. *)
Lemma toxml_text h fuel : ∀ n printed r,
  toxml range_ns fuel h n printed = Some r →
  ∃ vis, preorder fuel h n = Some vis
    ∧ r.1.2 = printed
              ∪ list_to_set (snd <$> mjoin (plan_of range_ns h printed vis))
    ∧ ∀ rest, text fuel h n (plan_of range_ns h printed vis ++ rest)
              = Some (r.1.1, rest).
Proof.
  induction fuel as [|fuel IH]; intros n printed r; [done|].
  destruct n as [d|p|cd|cmt|target inst]; cbn [toxml preorder text].
  - destruct (documents h !! d) as [xr|]; [|done]. cbn.
    by apply toxml_children_text.
  - destruct (elements h !! p) as [elt|] eqn:Helt; [|done].
    cbn [mbind option_bind]. cbv zeta.
    rewrite foldl_print_ns. cbn [fst snd app].
    set (own := first_uses snd printed (range_ns p (Namespaces elt))).
    assert (∀ vis, plan_of range_ns h printed (p :: vis)
                   = own :: plan_of range_ns h
                              (printed ∪ list_to_set (snd <$> own)) vis) as Hplan.
    { intros vis. cbn [plan_of].
      by rewrite (own_bindings_Some h p elt Helt). }
    assert (fmt_ns <$> own = declaration <$> own) as ->.
    { apply list_fmap_ext. intros _ kv _. apply fmt_ns_declaration. }
    case_decide as Hnil.
    + intros [= <-]. apply length_zero_iff_nil in Hnil. rewrite Hnil. cbn.
      exists [p]. split; [done|]. rewrite Hplan. cbn [plan_of mjoin list_join].
      split; [by rewrite app_nil_r|]. intros rest. by cbn.
    + destruct (toxml_children _ (children elt) _) as [r1|] eqn:Hr1; [|done].
      cbn. intros [= <-].
      destruct (toxml_children_text h _ _ _ _ (IH) _ _ Hr1) as (vis&->&Hp&Ht).
      cbn. exists (p :: vis). split; [done|]. rewrite Hplan. split.
      * etrans; [exact Hp|]. cbn. rewrite fmap_app, list_to_set_app_L. set_solver.
      * intros rest. cbn.
        destruct (children elt) as [|c cs] eqn:Hcs; [done|].
        rewrite Ht. done.
  - intros [= <-]. exists []. split; [done|]. split; [cbn; set_solver|done].
  - intros [= <-]. exists []. split; [done|]. split; [cbn; set_solver|done].
  - intros [= <-]. exists []. split; [done|]. split; [cbn; set_solver|done].
Qed.

Lemma bindings_of_own h p :
  bindings_of range_ns h p = pair p <$> own_bindings range_ns h p.
Proof. unfold bindings_of, own_bindings. by destruct (elements h !! p). Qed.

(** The declarations of a plan, one after the other, are the first uses of
    their URIs among the bindings of the elements. *)
Lemma plan_of_first_uses h vis : ∀ printed,
  mjoin (plan_of range_ns h printed vis)
  = snd <$> first_uses decl_uri printed (all_bindings range_ns h vis).
Proof.
  induction vis as [|p vis IH]; intros printed; [done|].
  unfold all_bindings in *. cbn. rewrite first_uses_app, fmap_app.
  rewrite bindings_of_own, first_uses_fmap, <-!list_fmap_compose.
  change (decl_uri ∘ pair p) with (snd : string * string → string).
  assert (∀ l : list (string * string), snd ∘ pair p <$> l = l) as ->
    by (intros l; exact (list_fmap_id l)).
  by rewrite IH.
Qed.

(** The entry of a plan for the element gone through at position [i]: the
    URI of a declaration in it is not in the printed set, is bound by the
    element, and is bound by no element gone through before. *)
Lemma plan_of_lookup h vis : ∀ printed i p own k u,
  vis !! i = Some p →
  plan_of range_ns h printed vis !! i = Some own →
  (k, u) ∈ own →
  (u ∉ printed) ∧ (k, u) ∈ own_bindings range_ns h p
  ∧ ∀ j q k', j < i → vis !! j = Some q →
              (k', u) ∉ own_bindings range_ns h q.
Proof.
  induction vis as [|p0 vis IH]; intros printed i p own k u Hi Hown Hku;
    [done|].
  destruct i as [|i]; cbn in Hi, Hown.
  - injection Hi as <-. injection Hown as <-.
    apply first_uses_elem_of in Hku as [Hin Hnp]. cbn in Hnp.
    split; [done|]. split; [done|]. intros j q k' Hj. lia.
  - destruct (IH _ _ _ _ _ _ Hi Hown Hku) as (Hnp&Hin&Hbefore).
    split; [set_solver|]. split; [done|].
    intros j q k' Hj Hq Hbound. destruct j as [|j]; cbn in Hq.
    + injection Hq as <-. apply Hnp. apply elem_of_union. right.
      apply elem_of_list_to_set. apply first_uses_keys.
      split; [set_solver|]. apply list_elem_of_fmap. by exists (k', u).
    + apply (Hbefore j q k'); [lia|done|done].
Qed.

Lemma toxml_children_total rec cs :
  (∀ c printed, c ∈ cs → is_Some (rec c printed)) →
  ∀ printed, is_Some (toxml_children rec cs printed).
Proof.
  induction cs as [|c cs IH]; intros Hrec printed; cbn; [by eexists|].
  destruct (Hrec c printed) as [r1 ->]; [by left|]. cbn.
  destruct (IH (λ c' pr Hc', Hrec c' pr (proj2 (elem_of_cons _ _ _) (or_intror Hc')))
              r1.1.2) as [r2 ->].
  cbn. by eexists.
Qed.

(** In a heap built by [Parse], [toxml] returns as soon as [fuel] covers the
    depth below [n]. *)
Lemma toxml_total h : HInv h → ∀ fuel n printed,
  node_ok h n → (need h n ≤ fuel)%nat →
  is_Some (toxml range_ns fuel h n printed).
Proof.
  intros Hh. induction fuel as [|fuel IH]; intros n printed Hok Hfuel.
  { destruct n; cbn in Hfuel; lia. }
  destruct n as [d|p|cd|cmt|target inst]; cbn [toxml]; try by eexists.
  - cbn in Hok, Hfuel.
    destruct (lookup_lt_is_Some_2 _ _ Hok) as [xr Hxr]. rewrite Hxr. cbn.
    apply toxml_children_total. intros c pr Hc.
    assert (c ∈ Children h (PtrXMLDocument d)) as Hc' by (cbn; by rewrite Hxr).
    destruct c as [d'|q| | |].
    + by destruct (inv_nodoc _ Hh _ _ Hc').
    + destruct (inv_child _ Hh _ _ Hc') as (e&He%lookup_lt_Some&_).
      apply IH; cbn; [done|lia].
    + apply IH; cbn; [done|lia].
    + apply IH; cbn; [done|lia].
    + apply IH; cbn; [done|lia].
  - cbn in Hok, Hfuel.
    destruct (lookup_lt_is_Some_2 _ _ Hok) as [elt Helt]. rewrite Helt.
    cbn [mbind option_bind]. cbv zeta. case_decide; [by eexists|].
    assert (∀ c pr, c ∈ children elt →
              is_Some (toxml range_ns fuel h c pr)) as Hcs.
    { intros c pr Hc.
      assert (c ∈ Children h (PtrElement p)) as Hc' by (cbn; by rewrite Helt).
      destruct c as [d'|q| | |].
      + by destruct (inv_nodoc _ Hh _ _ Hc').
      + destruct (inv_child _ Hh _ _ Hc') as (e&He%lookup_lt_Some&_).
        pose proof (inv_ordered _ Hh _ _ Hc').
        apply IH; cbn; [done|lia].
      + apply IH; cbn; [done|lia].
      + apply IH; cbn; [done|lia].
      + apply IH; cbn; [done|lia]. }
    destruct (toxml_children_total _ _ Hcs
                (foldl print_ns (printed, []) (range_ns p (Namespaces elt))).1)
      as [r ->].
    cbn. by eexists.
Qed.

Lemma Parse_HInv dec d h :
  Parse range_ns dec = Returned d h →
  HInv h ∧ d = 0 ∧ length (documents h) = 1.
Proof.
  unfold Parse. destruct (run range_ns init _) as [st|] eqn:Hrun; [|done].
  apply run_Inv in Hrun as [Hh Hd _ _].
  destruct (xml.final dec); [|done]. by intros [= <- <-].
Qed.

(** [ToXML] returns on every node of a tree built by [Parse]. *)
Lemma ToXML_total dec d h n :
  Parse range_ns dec = Returned d h → node_ok h n →
  is_Some (ToXML range_ns h n).
Proof.
  intros [Hh _]%Parse_HInv Hok. unfold ToXML.
  destruct (toxml_total h Hh (depth_bound h) n ∅ Hok) as [r ->].
  { unfold depth_bound. destruct n; cbn; lia. }
  by eexists.
Qed.

End Serializer.

Section Declarations.
Variable range_ns : nat → gmap string string → list (string * string).

(** A [range] statement visits every entry of the map once, in some order. *)
Hypothesis range_ns_perm : ∀ p m, range_ns p m ≡ₚ map_to_list m.

Lemma elem_of_range_ns p m k u : (k, u) ∈ range_ns p m ↔ m !! k = Some u.
Proof. by rewrite range_ns_perm, elem_of_map_to_list. Qed.

Lemma elem_of_bindings_of h p x :
  x ∈ bindings_of range_ns h p ↔
  ∃ elt, x.1 = p ∧ elements h !! p = Some elt
         ∧ Namespaces elt !! x.2.1 = Some x.2.2.
Proof.
  unfold bindings_of. destruct (elements h !! p) as [elt|].
  - rewrite list_elem_of_fmap. split.
    + intros ([k u]&->&Hkv%elem_of_range_ns). by exists elt.
    + intros (elt'&Hp&[= <-]&Hkv). destruct x as [p' [k u]]. cbn in *.
      exists (k, u). split; [by subst|]. by apply elem_of_range_ns.
  - split; [by intros ?%elem_of_nil|by intros (?&_&?&_)].
Qed.

Lemma preorder_root fuel h p vis :
  preorder fuel h (PtrElement p) = Some vis → ∃ vis', vis = p :: vis'.
Proof.
  destruct fuel as [|fuel]; [done|]. cbn.
  destruct (elements h !! p); [|done]. cbn.
  destruct (preorder_children _ _); [|done]. cbn. intros [= <-]. by eexists.
Qed.

Lemma elem_of_own_bindings h p k u :
  (k, u) ∈ own_bindings range_ns h p ↔
  ∃ elt, elements h !! p = Some elt ∧ Namespaces elt !! k = Some u.
Proof.
  unfold own_bindings. destruct (elements h !! p) as [elt|].
  - rewrite elem_of_range_ns. split; [by exists elt|by intros (?&[= <-]&?)].
  - split; [by intros ?%elem_of_nil|by intros (?&?&_)].
Qed.

(** C7. A top-level call ([ToXML]) starts [toxml] with an empty printed set,
    and returns on every tree built by [Parse].  The text such a call returns
    is the text of the description in which every namespace URI bound in the
    table of some element of the subtree is declared exactly once, by the
    first element in document order whose table holds it (no element before
    it, so no ancestor, holds it): [plan] lists, element by element, the
    declarations that stand in the text.  In every call, also a nested one,
    the text has no declaration below an element for a URI that is in the
    table of that element: a descendant does not declare again what the
    element holds. *)
Theorem namespace_declared_once :
  (∀ h n, ToXML range_ns h n
          = (λ r, r.1.1) <$> toxml range_ns (depth_bound h) h n ∅)
  ∧ (∀ dec d h n, Parse range_ns dec = Returned d h → node_ok h n →
       is_Some (ToXML range_ns h n))
  ∧ (∀ fuel h n s printed log,
       toxml range_ns fuel h n ∅ = Some (s, printed, log) →
       ∃ vis plan, preorder fuel h n = Some vis
         ∧ length plan = length vis
         ∧ text fuel h n plan = Some (s, [])
         ∧ NoDup (snd <$> mjoin plan)
         ∧ (∀ u, u ∈ (snd <$> mjoin plan) ↔
                 ∃ p elt k, p ∈ vis ∧ elements h !! p = Some elt
                            ∧ Namespaces elt !! k = Some u)
         ∧ (∀ i p own k u,
              vis !! i = Some p → plan !! i = Some own → (k, u) ∈ own →
              ∃ elt, elements h !! p = Some elt
                ∧ Namespaces elt !! k = Some u
                ∧ ∀ j q elt' k', j < i → vis !! j = Some q →
                                 elements h !! q = Some elt' →
                                 Namespaces elt' !! k' ≠ Some u))
  ∧ (∀ fuel h a elt printed0 s printed log k0 u,
       toxml range_ns fuel h (PtrElement a) printed0 = Some (s, printed, log) →
       elements h !! a = Some elt → Namespaces elt !! k0 = Some u →
       ∃ vis plan, preorder fuel h (PtrElement a) = Some (a :: vis)
         ∧ length plan = S (length vis)
         ∧ text fuel h (PtrElement a) plan = Some (s, [])
         ∧ ∀ i own k, 0 < i → plan !! i = Some own → (k, u) ∉ own).
Proof.
  split; [|split; [|split]].
  - intros h n. unfold ToXML. by destruct (toxml _ _ _ _ _).
  - intros dec d h n. apply ToXML_total.
  - intros fuel h n s printed log Hto.
    destruct (toxml_text _ _ _ _ _ _ Hto) as (vis&Hvis&_&Htext).
    exists vis, (plan_of range_ns h ∅ vis). split; [done|].
    split; [apply length_plan_of|].
    split; [by rewrite <-(app_nil_r (plan_of _ _ _ _)), Htext|].
    rewrite plan_of_first_uses, <-list_fmap_compose.
    change (snd ∘ snd) with decl_uri.
    split; [apply first_uses_NoDup|]. split.
    + intros u. rewrite first_uses_keys. unfold all_bindings. split.
      * intros [_ (x&->&(p&Hx&Hp)%list_elem_of_bind)%list_elem_of_fmap].
        apply elem_of_bindings_of in Hx as (elt&_&Helt&Hk). by eauto 10.
      * intros (p&elt&k&Hp&Helt&Hk). split; [set_solver|].
        apply list_elem_of_fmap. exists (p, (k, u)). split; [done|].
        apply list_elem_of_bind. exists p. split; [|done].
        apply elem_of_bindings_of. by exists elt.
    + intros i p own k u Hi Hown Hku.
      destruct (plan_of_lookup _ _ _ _ _ _ _ _ _ Hi Hown Hku) as (_&Hin&Hbefore).
      apply elem_of_own_bindings in Hin as (elt&Helt&Hk).
      exists elt. split; [done|]. split; [done|].
      intros j q elt' k' Hj Hq Helt' Hk'. apply (Hbefore j q k' Hj Hq).
      apply elem_of_own_bindings. by exists elt'.
  - intros fuel h a elt printed0 s printed log k0 u Hto Helt Hk0.
    destruct (toxml_text _ _ _ _ _ _ Hto) as (vis&Hvis&_&Htext).
    destruct (preorder_root _ _ _ _ Hvis) as [vis' ->].
    exists vis', (plan_of range_ns h printed0 (a :: vis')). split; [done|].
    split; [by rewrite length_plan_of|].
    split; [by rewrite <-(app_nil_r (plan_of _ _ _ _)), Htext|].
    intros i own k Hi Hown Hku.
    destruct (lookup_lt_is_Some_2 (a :: vis') i) as [p Hp].
    { apply lookup_lt_Some in Hown. by rewrite length_plan_of in Hown. }
    destruct (plan_of_lookup _ _ _ _ _ _ _ _ _ Hp Hown Hku) as (_&_&Hbefore).
    apply (Hbefore 0 a k0 Hi eq_refl).
    apply elem_of_own_bindings. by exists elt.
Qed.

End Declarations.

Section Attributes.
Variable range_ns : nat → gmap string string → list (string * string).

Lemma toxml_children_ext rec1 rec2 cs printed :
  (∀ c pr, rec1 c pr = rec2 c pr) →
  toxml_children rec1 cs printed = toxml_children rec2 cs printed.
Proof.
  intros Hrec. revert printed. induction cs as [|c cs IH]; intros printed; cbn.
  { done. }
  rewrite Hrec. destruct (rec2 c printed) as [r1|]; [|done]. cbn.
  by rewrite IH.
Qed.

(** [toxml] does not read the namespace of an attribute. *)
Lemma toxml_forget_attr_space h fuel : ∀ n printed,
  toxml range_ns fuel (forget_attr_space h) n printed
  = toxml range_ns fuel h n printed.
Proof.
  induction fuel as [|fuel IH]; intros n printed; [done|].
  destruct n as [d|p|cd|cmt|target inst]; cbn [toxml]; try done.
  - cbn [forget_attr_space documents].
    destruct (documents h !! d) as [xr|]; [|done]. cbn.
    by apply toxml_children_ext.
  - cbn [forget_attr_space elements]. rewrite list_lookup_fmap.
    destruct (elements h !! p) as [elt|]; [|done].
    cbn [fmap option_fmap option_map mbind option_bind].
    cbn [Name Prefix Namespaces children attributes].
    rewrite <-list_fmap_compose.
    rewrite (toxml_children_ext _ (toxml range_ns fuel h)) by done.
    done.
Qed.

(** C10. An element is written as <, its name, its new namespace
    declarations and then each ordinary attribute as a blank, the local name
    of the attribute, and its escaped value between double quotes; the
    namespace of an attribute is not read, so the text is the one of the tree
    in which no attribute has a namespace, also for attributes that were
    parsed with a qualified name. *)
Theorem attribute_written_by_local_name :
  (∀ fuel h p elt printed s printed' log,
     elements h !! p = Some elt →
     toxml range_ns (S fuel) h (PtrElement p) printed = Some (s, printed', log) →
     (∃ rest,
        s = "<" +:+ written_name elt
            +:+ sb_String
                  (fmt_ns <$> first_uses snd printed (range_ns p (Namespaces elt)))
            +:+ sb_String (local_attr <$> attributes elt) +:+ rest)
     ∧ toxml range_ns (S fuel) (forget_attr_space h) (PtrElement p) printed
       = Some (s, printed', log))
  ∧ (∀ dec d h n, Parse range_ns dec = Returned d h → node_ok h n →
       ∃ s, ToXML range_ns h n = Some s
            ∧ ToXML range_ns (forget_attr_space h) n = Some s).
Proof.
  split.
  - intros fuel h p elt printed s printed' log Helt Hto.
    split; [|by rewrite toxml_forget_attr_space].
    cbn [toxml] in Hto. rewrite Helt in Hto.
    cbn [mbind option_bind] in Hto. cbv zeta in Hto.
    rewrite foldl_print_ns in Hto. cbn [fst snd app] in Hto.
    fold (written_name elt) in Hto.
    change fmt_attr with local_attr in Hto.
    case_decide.
    + injection Hto as <- _ _. eexists. by rewrite !append_assoc.
    + destruct (toxml_children _ _ _) as [r|]; [|done]. cbn in Hto.
      injection Hto as <- _ _. eexists. by rewrite !append_assoc.
  - intros dec d h n HP Hok.
    destruct (ToXML_total range_ns dec d h n HP Hok) as [s Hs].
    exists s. split; [done|]. unfold ToXML in *.
    replace (depth_bound (forget_attr_space h)) with (depth_bound h).
    + by rewrite toxml_forget_attr_space.
    + unfold depth_bound, forget_attr_space. cbn. by rewrite length_fmap.
Qed.

End Attributes.


End goxml_facts.

(** * Theorems about revision 2 *)
Module goxml_id_facts.
Import goxml_id.

Section Attributes.
Variable range_ns : gmap string string → list (string * string).

Lemma filter_same_name (attrs : list xml.Attr) (name : xml.Name) :
  (∀ a, a ∈ attrs → xml.AName a ≠ name) →
  filter (λ a, xml.AName a ≠ name) attrs = attrs.
Proof.
  induction attrs as [|a attrs IH]; intros Hall; [done|].
  rewrite filter_cons_True by (apply Hall; by left).
  f_equal. apply IH. intros b Hb. apply Hall. by right.
Qed.

Lemma filter_other_name (attrs : list xml.Attr) (name : xml.Name) :
  filter (λ a, xml.AName a = name) (filter (λ a, xml.AName a ≠ name) attrs) = [].
Proof.
  induction attrs as [|a attrs IH]; [done|].
  destruct (decide (xml.AName a = name)) as [Ha|Ha].
  - by rewrite (filter_cons_False (λ a, xml.AName a ≠ name)) by naive_solver.
  - rewrite (filter_cons_True (λ a, xml.AName a ≠ name)) by done.
    by rewrite filter_cons_False.
Qed.

Lemma overwrite_value_in_place pre old post name space value :
  xml.Local (xml.AName old) = name → xml.Space (xml.AName old) = space →
  (∀ a, a ∈ pre →
        ¬ (xml.Local (xml.AName a) = name ∧ xml.Space (xml.AName a) = space)) →
  overwrite_value (pre ++ old :: post) name space value
  = Some (pre ++ {| xml.AName := xml.AName old; xml.Value := value |} :: post).
Proof.
  intros Hl Hs. induction pre as [|a pre IH]; intros Hpre; cbn.
  - by rewrite decide_True.
  - rewrite decide_False by (apply Hpre; by left).
    rewrite IH; [done|]. intros b Hb. apply Hpre. by right.
Qed.

Lemma overwrite_value_none attrs name space value :
  (∀ a, a ∈ attrs →
        ¬ (xml.Local (xml.AName a) = name ∧ xml.Space (xml.AName a) = space)) →
  overwrite_value attrs name space value = None.
Proof.
  induction attrs as [|a attrs IH]; intros Hall; cbn; [done|].
  rewrite decide_False by (apply Hall; by left).
  rewrite IH; [done|]. intros b Hb. apply Hall. by right.
Qed.

(** C6 (amended). [SetAttribute] discards every attribute whose stored name is
    the given (namespace, local name) pair and appends the new attribute at
    the end of the list: an attribute that is replaced moves to the last
    position, the other attributes keep their order, a new name is appended
    at the end, and for a name without namespace exactly one attribute of
    that name remains.  Appending an [Attribute] node with [Append] is what
    overwrites the value of the first attribute of that name where it
    stands, or appends a new attribute at the end. *)
Theorem SetAttribute_appends_at_the_end :
  (∀ elt attr, ∃ stored,
     attributes (SetAttribute range_ns elt attr)
     = filter (λ a, xml.AName a ≠ xml.AName attr) (attributes elt) ++ [stored]
     ∧ xml.Value stored = xml.Value attr
     ∧ xml.Space (xml.AName stored) = xml.Space (xml.AName attr)
     ∧ (xml.Space (xml.AName attr) = EmptyString →
        stored = attr
        ∧ length (filter (λ a, xml.AName a = xml.AName attr)
                         (attributes (SetAttribute range_ns elt attr))) = 1))
  ∧ (∀ elt attr pre old post,
       attributes elt = pre ++ old :: post →
       xml.AName old = xml.AName attr →
       (∀ a, a ∈ pre ++ post → xml.AName a ≠ xml.AName attr) →
       ∃ stored, attributes (SetAttribute range_ns elt attr)
                 = pre ++ post ++ [stored]
                 ∧ xml.Value stored = xml.Value attr)
  ∧ (∀ elt attr,
       (∀ a, a ∈ attributes elt → xml.AName a ≠ xml.AName attr) →
       ∃ stored, attributes (SetAttribute range_ns elt attr)
                 = attributes elt ++ [stored]
                 ∧ xml.Value stored = xml.Value attr)
  ∧ (∀ elt t pre old post,
       attributes elt = pre ++ old :: post →
       xml.Local (xml.AName old) = att_Name t →
       xml.Space (xml.AName old) = att_Namespace t →
       (∀ a, a ∈ pre → ¬ (xml.Local (xml.AName a) = att_Name t
                          ∧ xml.Space (xml.AName a) = att_Namespace t)) →
       attributes (append_node elt (ValAttribute t))
       = pre ++ {| xml.AName := xml.AName old; xml.Value := att_Value t |} :: post)
  ∧ (∀ elt t,
       (∀ a, a ∈ attributes elt →
             ¬ (xml.Local (xml.AName a) = att_Name t
                ∧ xml.Space (xml.AName a) = att_Namespace t)) →
       attributes (append_node elt (ValAttribute t))
       = attributes elt
         ++ [ {| xml.AName := {| xml.Space := att_Namespace t;
                                 xml.Local := att_Name t |};
                 xml.Value := att_Value t |} ]).
Proof.
  assert (∀ elt attr, ∃ stored,
     attributes (SetAttribute range_ns elt attr)
     = filter (λ a, xml.AName a ≠ xml.AName attr) (attributes elt) ++ [stored]
     ∧ xml.Value stored = xml.Value attr
     ∧ xml.Space (xml.AName stored) = xml.Space (xml.AName attr)
     ∧ (xml.Space (xml.AName attr) = EmptyString → stored = attr)) as Hset.
  { intros elt attr. unfold SetAttribute. cbn [attributes set_attributes].
    eexists. split; [done|]. case_decide as Hsp; cbn.
    - split; [done|]. split; [done|]. intros Hsp'. by destruct Hsp.
    - done. }
  split; [|split; [|split; [|split]]].
  - intros elt attr. destruct (Hset elt attr) as (stored&Heq&Hv&Hs&Hst).
    exists stored. split; [done|]. split; [done|]. split; [done|].
    intros Hsp. rewrite (Hst Hsp) in *. split; [done|].
    rewrite Heq, filter_app, filter_other_name.
    by rewrite filter_cons_True.
  - intros elt attr pre old post Hattrs Hold Hothers.
    destruct (Hset elt attr) as (stored&Heq&Hv&_).
    exists stored. split; [|done].
    rewrite Heq, Hattrs, filter_app, filter_cons_False by naive_solver.
    rewrite <-filter_app, filter_same_name by done. by rewrite <-app_assoc.
  - intros elt attr Hothers.
    destruct (Hset elt attr) as (stored&Heq&Hv&_).
    exists stored. split; [|done]. by rewrite Heq, filter_same_name.
  - intros elt t pre old post Hattrs Hl Hs Hpre.
    cbn [append_node attributes set_attributes]. unfold append_attribute.
    by rewrite Hattrs, (overwrite_value_in_place pre old post).
  - intros elt t Hall.
    cbn [append_node attributes set_attributes]. unfold append_attribute.
    by rewrite overwrite_value_none.
Qed.

End Attributes.

(** ** The loop of [Parse] on the streams of the decoder *)

Section Guarded.
Variable range_ns : nat → gmap string string → list (string * string).









End Guarded.


End goxml_id_facts.

(** * Further theorems about revision 1 *)
Module goxml_more.
Import goxml goxml_spec goxml_facts.

(** ** [escape] *)

Lemma length_append (s1 s2 : string) :
  String.length (s1 +:+ s2) = String.length s1 + String.length s2.
Proof.
  induction s1 as [|a s1 IH]; [done|].
  change (S (String.length (s1 +:+ s2)) = S (String.length s1 + String.length s2)).
  by rewrite IH.
Qed.

Lemma chars_append (s1 s2 : string) :
  String.list_ascii_of_string (s1 +:+ s2)
  = String.list_ascii_of_string s1 ++ String.list_ascii_of_string s2.
Proof.
  induction s1 as [|a s1 IH]; [done|].
  change (a :: String.list_ascii_of_string (s1 +:+ s2)
          = a :: (String.list_ascii_of_string s1 ++ String.list_ascii_of_string s2)).
  by rewrite IH.
Qed.

(** X1. The text [escape] returns holds no < and no double quote. *)
Theorem escape_leaves_no_markup (s : string) (c : Ascii.ascii) :
  c ∈ String.list_ascii_of_string (escape s) →
  c ≠ "<"%char ∧ c ≠ Ascii.ascii_of_nat 34.
Proof.
  induction s as [|b s IH]; [by intros ?%elem_of_nil|].
  rewrite escape_String, chars_append, elem_of_app. intros [Hc|Hc]; [|by auto].
  destruct (Ascii.eqb_spec b "&"%char) as [->|Hamp].
  { cbn in Hc. set_solver. }
  destruct (Ascii.eqb_spec b "<"%char) as [->|Hlt].
  { cbn in Hc. set_solver. }
  destruct (Ascii.eqb_spec b (Ascii.ascii_of_nat 34)) as [->|Hdq].
  { cbn in Hc. set_solver. }
  cbn in Hc. apply list_elem_of_singleton in Hc. by subst c.
Qed.

Lemma escape_length (s : string) :
  (String.length s ≤ String.length (escape s))%nat.
Proof.
  induction s as [|b s IH]; [done|].
  rewrite escape_String, length_append.
  destruct (Ascii.eqb b "&"%char); [cbn; lia|].
  destruct (Ascii.eqb b "<"%char); [cbn; lia|].
  destruct (Ascii.eqb b (Ascii.ascii_of_nat 34)); cbn; lia.
Qed.

(** X2. [escape] returns its argument unchanged exactly when the argument
    holds no ampersand, no < and no double quote. *)
Theorem escape_unchanged_iff (s : string) :
  escape s = s ↔
  ∀ c, c ∈ String.list_ascii_of_string s →
       c ≠ "&"%char ∧ c ≠ "<"%char ∧ c ≠ Ascii.ascii_of_nat 34.
Proof.
  induction s as [|b s IH]; [split; [by intros _ c ?%elem_of_nil|done]|].
  rewrite escape_String. pose proof (escape_length s) as Hlen.
  split.
  - intros Heq c Hc.
    assert (String.length
              ((if Ascii.eqb b "&"%char then "&amp;"
                else if Ascii.eqb b "<"%char then "&lt;"
                else if Ascii.eqb b (Ascii.ascii_of_nat 34) then "&quot;"
                else String b EmptyString) +:+ escape s)
            = S (String.length s)) as Hl by (by rewrite Heq).
    rewrite length_append in Hl.
    destruct (Ascii.eqb_spec b "&"%char) as [->|Hamp]; [cbn in Hl; lia|].
    destruct (Ascii.eqb_spec b "<"%char) as [->|Hlt]; [cbn in Hl; lia|].
    destruct (Ascii.eqb_spec b (Ascii.ascii_of_nat 34)) as [->|Hdq];
      [cbn in Hl; lia|].
    cbn in Hc. apply elem_of_cons in Hc as [->|Hc]; [done|].
    apply IH; [|done]. by injection Heq.
  - intros Hall.
    destruct (Hall b) as (Hamp&Hlt&Hdq); [by left|].
    destruct (Ascii.eqb_spec b "&"%char); [done|].
    destruct (Ascii.eqb_spec b "<"%char); [done|].
    destruct (Ascii.eqb_spec b (Ascii.ascii_of_nat 34)); [done|].
    change (String b (escape s) = String b s). f_equal. apply IH.
    intros c Hc. apply Hall. by right.
Qed.

(** ** [Root] *)

Lemma first_element_None cs :
  first_element cs = None ↔ ∀ p, PtrElement p ∉ cs.
Proof.
  induction cs as [|c cs IH]; cbn.
  { split; [intros _ p; apply not_elem_of_nil|done]. }
  destruct c as [d|q|t|t|t i]; rewrite ?IH; try (split;
    [intros H p [?|?]%elem_of_cons; [done|by eapply H]
    |intros H p Hp; apply (H p); by right]).
  split; [done|]. intros H. destruct (H q). by left.
Qed.

Lemma first_element_Some cs p :
  first_element cs = Some p ↔
  ∃ pre post, cs = pre ++ PtrElement p :: post ∧ ∀ q, PtrElement q ∉ pre.
Proof.
  induction cs as [|c cs IH]; cbn.
  { split; [done|]. intros (pre&post&Hcs&_). by destruct pre. }
  assert ((∃ pre post, cs = pre ++ PtrElement p :: post ∧ ∀ q, PtrElement q ∉ pre)
          → (∀ q, c ≠ PtrElement q)
          → ∃ pre post, c :: cs = pre ++ PtrElement p :: post
                        ∧ ∀ q, PtrElement q ∉ pre) as Hcons.
  { intros (pre&post&->&Hpre) Hc. exists (c :: pre), post. split; [done|].
    intros q [?|?]%elem_of_cons; [by eapply Hc|by eapply Hpre]. }
  assert ((∃ pre post, c :: cs = pre ++ PtrElement p :: post
                       ∧ ∀ q, PtrElement q ∉ pre)
          → (∀ q, c ≠ PtrElement q)
          → ∃ pre post, cs = pre ++ PtrElement p :: post
                        ∧ ∀ q, PtrElement q ∉ pre) as Htail.
  { intros (pre&post&Hcs&Hpre) Hc. destruct pre as [|c' pre]; simplify_eq/=.
    - by destruct (Hc p).
    - exists pre, post. split; [done|].
      intros q Hq. apply (Hpre q). by right. }
  destruct c as [d|q|t|t|t i]; rewrite ?IH;
    try (split; [intros H; by apply Hcons|intros H; by apply Htail]).
  split.
  - intros [= ->]. exists [], cs. split; [done|]. intros q. apply not_elem_of_nil.
  - intros (pre&post&Hcs&Hpre). destruct pre as [|c' pre]; simplify_eq/=.
    + done.
    + destruct (Hpre q). by left.
Qed.

(** X3. [Root] returns the first child of the document that is an element,
    whatever stands before it, and fails exactly when no child is an
    element. *)
Theorem Root_is_first_element (xr : XMLDocument) :
  (Root xr = None ↔ ∀ p, PtrElement p ∉ doc_children xr)
  ∧ (∀ p, Root xr = Some p ↔
          ∃ pre post, doc_children xr = pre ++ PtrElement p :: post
                      ∧ ∀ q, PtrElement q ∉ pre).
Proof.
  split; [apply first_element_None|]. intros p. apply first_element_Some.
Qed.

(** ** What the builder keeps *)

Lemma Keeps_refl h : Keeps h h.
Proof. intros q e He. exists e. done. Qed.

Lemma Keeps_trans h1 h2 h3 : Keeps h1 h2 → Keeps h2 h3 → Keeps h1 h3.
Proof.
  intros H12 H23 q e He. destruct (H12 _ _ He) as (e2&He2&?&?&?&?).
  destruct (H23 _ _ He2) as (e3&He3&?&?&?&?).
  exists e3. repeat split; congruence.
Qed.

Lemma Keeps_store_element h p e e' :
  elements h !! p = Some e →
  Name e' = Name e → Prefix e' = Prefix e →
  Namespaces e' = Namespaces e → attributes e' = attributes e →
  Keeps h (store_element h p e').
Proof.
  intros He HN HP HNs HA q e0 He0. cbn.
  destruct (decide (q = p)) as [->|Hne].
  - rewrite list_lookup_insert_eq by by eapply lookup_lt_Some.
    simplify_eq. by exists e'.
  - rewrite list_lookup_insert_ne by done. by exists e0.
Qed.

Lemma Append_Keeps h c n h' :
  Append h c n = Some h' →
  Keeps h h' ∧ length (elements h') = length (elements h)
  ∧ length (documents h') = length (documents h).
Proof.
  destruct c as [d|p| | |]; cbn;
    try (intros [= <-]; split; [apply Keeps_refl|done]).
  - unfold XMLDocument_Append, setParent.
    destruct (documents h !! d) as [xr|]; [|done]. cbn.
    assert (∀ xr', Keeps h (store_document h d xr')) as HKd.
    { intros xr' q e He. by exists e. }
    destruct n as [d'|q| | |]; cbn;
      try (intros [= <-]; split; [apply HKd|cbn; by rewrite length_insert]).
    destruct (elements h !! q) as [e|] eqn:He; [|done]. cbn. intros [= <-].
    cbn. rewrite !length_insert. split; [|done].
    by apply (Keeps_store_element h q e).
  - unfold Element_Append.
    destruct (elements h !! p) as [e|] eqn:He; [|done]. cbn. intros [= <-].
    cbn. rewrite length_insert. split; [|done].
    by apply (Keeps_store_element h p e).
Qed.

Section Kept.
Variable range_ns : nat → gmap string string → list (string * string).

(** The element a start-tag creates, as it stands after the pass. *)
Lemma step_creates st v_Name v_Attr st' :
  step range_ns st (xml.StartElement v_Name v_Attr) = Some st' →
  ∃ ns0 e,
    inherited range_ns (heap st) (cur st) = Some ns0
    ∧ elements (heap st') !! length (elements (heap st)) = Some e
    ∧ Name e = xml.Local v_Name
    ∧ Namespaces e = (foldl scan_attr (ns0, []) v_Attr).1
    ∧ attributes e = (foldl scan_attr (ns0, []) v_Attr).2
    ∧ Prefix e = resolve_prefix range_ns (length (elements (heap st)))
                   (xml.Space v_Name) (foldl scan_attr (ns0, []) v_Attr).1.
Proof.
  unfold step. destruct (inherited _ _ _) as [ns0|]; [|done].
  cbn [mbind option_bind]. cbv zeta.
  set (tmp := Build_Element _ _ _ _ _ _).
  destruct (Append _ _ _) as [h|] eqn:HA; [|done]. cbn. intros [= <-]. cbn.
  apply Append_Keeps in HA as (HK&_).
  destruct (HK (length (elements (heap st))) tmp) as (e&He&HN&HP&HNs&HAt).
  { cbn. by rewrite list_lookup_middle. }
  exists ns0, e. by rewrite HN, HP, HNs, HAt.
Qed.

Lemma step_Keeps st t st' :
  step range_ns st t = Some st' →
  Keeps (heap st) (heap st')
  ∧ length (elements (heap st'))
    = length (elements (heap st)) + start_tags [t]
  ∧ length (documents (heap st')) = length (documents (heap st)).
Proof.
  destruct t as [v_Name v_Attr|v_Name|v|v|target inst|v]; unfold step.
  - destruct (inherited _ _ _) as [ns0|]; [|done].
    cbn [mbind option_bind]. cbv zeta.
    destruct (Append _ _ _) as [h|] eqn:HA; [|done]. cbn. intros [= <-]. cbn.
    apply Append_Keeps in HA as (HK&Hle&Hld). cbn in Hle, Hld.
    rewrite Hle, Hld, length_app. cbn. split; [|done].
    eapply Keeps_trans; [|done]. intros q e He. exists e.
    cbn. rewrite lookup_app_l by by eapply lookup_lt_Some. done.
  - case_decide; [done|]. destruct (_ !! _); [|done]. cbn. intros [= <-].
    cbn. split; [apply Keeps_refl|lia].
  - destruct (Append _ _ _) as [h|] eqn:HA; [|done]. cbn. intros [= <-]. cbn.
    apply Append_Keeps in HA as (HK&Hle&Hld). split; [done|lia].
  - destruct (Append _ _ _) as [h|] eqn:HA; [|done]. cbn. intros [= <-]. cbn.
    apply Append_Keeps in HA as (HK&Hle&Hld). split; [done|lia].
  - destruct (Append _ _ _) as [h|] eqn:HA; [|done]. cbn. intros [= <-]. cbn.
    apply Append_Keeps in HA as (HK&Hle&Hld). split; [done|lia].
  - intros [= <-]. cbn. split; [apply Keeps_refl|lia].
Qed.

Lemma run_Keeps toks : ∀ st st',
  run range_ns st toks = Some st' →
  Keeps (heap st) (heap st')
  ∧ length (elements (heap st'))
    = length (elements (heap st)) + start_tags toks
  ∧ length (documents (heap st')) = length (documents (heap st)).
Proof.
  induction toks as [|t toks IH]; intros st st'; cbn [run].
  { intros [= <-]. cbn. split; [apply Keeps_refl|lia]. }
  destruct (step range_ns st t) as [st1|] eqn:Hstep; [|done]. cbn.
  intros Hrun. apply step_Keeps in Hstep as (HK1&Hl1&Hd1).
  apply IH in Hrun as (HK2&Hl2&Hd2).
  split; [by eapply Keeps_trans|]. rewrite Hl2, Hl1, Hd2, Hd1.
  split; [|done]. cbn. destruct t; cbn; lia.
Qed.

Lemma run_split toks1 toks2 st st' :
  run range_ns st (toks1 ++ toks2) = Some st' →
  ∃ st1, run range_ns st toks1 = Some st1 ∧ run range_ns st1 toks2 = Some st'.
Proof.
  revert st. induction toks1 as [|t toks1 IH]; intros st; cbn [app run].
  { intros Hrun. by exists st. }
  destruct (step range_ns st t) as [st1|]; [|done]. cbn. apply IH.
Qed.

Lemma Parse_Returned dec d h :
  Parse range_ns dec = Returned d h →
  ∃ st, run range_ns init (tokens dec) = Some st ∧ heap st = h ∧ d = 0.
Proof.
  unfold Parse, tokens. destruct (run range_ns init _) as [st|]; [|done].
  destruct (xml.final dec); [|done]. intros [= <- <-]. by exists st.
Qed.


End Kept.

(** ** The element of a start-tag *)

Lemma scan_attr_ordinary attrs : ∀ ns acc,
  (foldl scan_attr (ns, acc) attrs).2
  = acc ++ filter (λ att, declares att = None) attrs.
Proof.
  induction attrs as [|att attrs IH]; intros ns acc; cbn [foldl].
  { by rewrite app_nil_r. }
  unfold scan_attr at 2. cbn [fst snd].
  case_decide as H1; [|case_decide as H2].
  - rewrite IH, filter_cons_False; [done|].
    unfold declares. by rewrite decide_True.
  - rewrite IH, filter_cons_False; [done|].
    unfold declares. by rewrite decide_False, decide_True.
  - rewrite IH, filter_cons_True, <-app_assoc; [done|].
    unfold declares. by rewrite !decide_False.
Qed.

Lemma scan_attr_bindings attrs : ∀ ns acc k,
  (foldl scan_attr (ns, acc) attrs).1 !! k
  = from_option Some (ns !! k) (declared k attrs).
Proof.
  induction attrs as [|att attrs IH]; intros ns acc k; cbn [foldl declared].
  { done. }
  unfold scan_attr at 2. cbn [fst snd]. unfold declares.
  case_decide as H1; [|case_decide as H2]; rewrite IH;
    destruct (declared k attrs) as [v|]; cbn; try done.
  - case_decide as Hk; [subst k; by rewrite lookup_insert_eq|].
    by rewrite lookup_insert_ne.
  - case_decide as Hk; [subst k; by rewrite lookup_insert_eq|].
    by rewrite lookup_insert_ne.
Qed.

Lemma foldl_insert_NoDup (l : list (string * string)) :
  NoDup (l.*1) →
  foldl (λ m kv, <[kv.1 := kv.2]> m) (∅ : gmap string string) l = list_to_map l.
Proof.
  induction l as [|[k v] l IH] using rev_ind; [done|].
  rewrite fmap_app. intros [Hl [Hk _]]%NoDup_app.
  rewrite foldl_snoc, IH by done. cbn. rewrite list_to_map_snoc; [done|].
  intros Hin. apply (Hk k Hin). by left.
Qed.

Lemma foldl_insert_range (m : gmap string string) l :
  l ≡ₚ map_to_list m →
  foldl (λ m kv, <[kv.1 := kv.2]> m) ∅ l = m.
Proof.
  intros Hl. rewrite foldl_insert_NoDup.
  - rewrite (list_to_map_proper l (map_to_list m)); [|by rewrite Hl; apply NoDup_fst_map_to_list|done].
    apply list_to_map_to_list.
  - rewrite Hl. apply NoDup_fst_map_to_list.
Qed.

Lemma last_match space (l : list (string * string)) : ∀ init,
  let r := foldl (λ pfx kv, if decide (space = kv.2) then kv.1 else pfx) init l in
  ((∃ k, (k, space) ∈ l) → (r, space) ∈ l)
  ∧ ((∀ k, (k, space) ∉ l) → r = init).
Proof.
  induction l as [|[k v] l IH] using rev_ind; intros init r.
  { split; [by intros [k ?%elem_of_nil]|done]. }
  unfold r. rewrite foldl_snoc. cbn. destruct (IH init) as [IH1 IH2].
  case_decide as Hv.
  - subst v. split; [|intros H; by destruct (H k); apply elem_of_app; right; left].
    intros _. apply elem_of_app. right. by left.
  - split.
    + intros [k' [Hin|Hin]%elem_of_app].
      * apply elem_of_app. left. apply IH1. by exists k'.
      * apply list_elem_of_singleton in Hin. by simplify_eq.
    + intros Hnone. apply IH2. intros k' Hin. apply (Hnone k').
      apply elem_of_app. by left.
Qed.

Section StartTag.
Variable range_ns : nat → gmap string string → list (string * string).
Hypothesis range_ns_perm : ∀ p m, range_ns p m ≡ₚ map_to_list m.

(** The bindings an element starts from are the table of the node it is
    created under, in whatever order the table is ranged over. *)
Lemma inherited_table h c :
  valid h c → inherited range_ns h c = Some (table h c).
Proof.
  destruct c as [d|p| | |]; cbn; try done.
  intros [elt ->]%lookup_lt_is_Some_2. cbn.
  by rewrite (foldl_insert_range (Namespaces elt)).
Qed.

(** The run of [Parse] around one start-tag. *)
Lemma around_start_tag toks1 v_Name v_Attr toks2 d h :
  Parse range_ns
    (xml.NewDecoder (toks1 ++ xml.StartElement v_Name v_Attr :: toks2) xml.EOF)
  = Returned d h →
  ∃ st1 st' st2,
    run range_ns init toks1 = Some st1
    ∧ step range_ns st1 (xml.StartElement v_Name v_Attr) = Some st'
    ∧ run range_ns st' toks2 = Some st2
    ∧ heap st2 = h
    ∧ length (elements (heap st1)) = start_tags toks1.
Proof.
  intros (st&Hrun&<-&_)%Parse_Returned. rewrite tokens_NewDecoder in Hrun.
  apply run_split in Hrun as (st1&Hrun1&Hrun2). cbn [run] in Hrun2.
  destruct (step range_ns st1 _) as [st'|] eqn:Hstep; [|done]. cbn in Hrun2.
  exists st1, st', st. do 4 (split; [done|]).
  by apply run_Keeps in Hrun1 as (_&->&_).
Qed.

(** X5. The element that [Parse] builds for the start-tag number k of the
    stream (counting from 0) is the element at address k; it has the local
    name of the tag and, in the order of the tag, the attributes of the tag
    that are no namespace declarations. *)
Theorem start_tag_name_and_attributes toks1 v_Name v_Attr toks2 d h :
  Parse range_ns
    (xml.NewDecoder (toks1 ++ xml.StartElement v_Name v_Attr :: toks2) xml.EOF)
  = Returned d h →
  ∃ e, elements h !! start_tags toks1 = Some e
    ∧ Name e = xml.Local v_Name
    ∧ attributes e = filter (λ att, declares att = None) v_Attr
    ∧ Forall (λ att, xml.Local (xml.AName att) ≠ "xmlns"
                     ∧ xml.Space (xml.AName att) ≠ "xmlns") (attributes e).
Proof.
  intros (st1&st'&st2&Hrun1&Hstep&Hrun2&<-&<-)%around_start_tag.
  apply step_creates in Hstep as (ns0&e&_&He&HN&_&HA&_).
  apply run_Keeps in Hrun2 as (HK&_).
  destruct (HK _ _ He) as (e2&He2&HN2&_&_&HA2).
  exists e2. split; [done|]. split; [congruence|].
  rewrite HA2, HA, scan_attr_ordinary. cbn. split; [done|].
  apply Forall_forall. intros att [Hd _]%list_elem_of_filter.
  unfold declares in Hd. by repeat case_decide.
Qed.

(** X6. The binding table of that element binds every prefix that the tag
    declares to the URI of its last declaration on the tag, and every other
    prefix as the table of the parent element does; under the document,
    nothing else is bound. *)
Theorem start_tag_bindings toks1 v_Name v_Attr toks2 d h :
  Parse range_ns
    (xml.NewDecoder (toks1 ++ xml.StartElement v_Name v_Attr :: toks2) xml.EOF)
  = Returned d h →
  ∃ e c, elements h !! start_tags toks1 = Some e
    ∧ Parent e = Some c
    ∧ ∀ k, Namespaces e !! k
           = from_option Some (table h c !! k) (declared k v_Attr).
Proof.
  intros (st1&st'&st2&Hrun1&Hstep&Hrun2&<-&<-)%around_start_tag.
  pose proof (run_Inv _ _ _ Hrun1) as HI1.
  pose proof (Inv_cur_valid _ HI1) as Hcur.
  pose proof (step_spec range_ns st1 (xml.StartElement v_Name v_Attr) HI1)
    as (st''&Hstep'&HI'&_&_&_&ep&Hep&HPp).
  rewrite Hstep in Hstep'. injection Hstep' as <-.
  pose proof (step_Keeps _ _ _ _ Hstep) as (HKs&_).
  apply step_creates in Hstep as (ns0&e&Hinh&He&_&HNs&_).
  rewrite inherited_table in Hinh by done. injection Hinh as <-.
  simplify_eq.
  pose proof (run_spec range_ns toks2 st' HI') as Hspec.
  destruct (nesting _ toks2); [|congruence].
  destruct Hspec as (st3&Hrun3&_&Hext&_). simplify_eq.
  apply run_Keeps in Hrun2 as (HK&_).
  destruct (HK _ _ He) as (e2&He2&_&_&HNs2&_).
  destruct (Hext _ _ He) as (e3&He3&HP3). simplify_eq.
  exists e2, (cur st1). split; [done|]. split; [congruence|].
  intros k. rewrite HNs2, HNs, scan_attr_bindings. f_equal.
  destruct (cur st1) as [d0|p| | |]; cbn; try done.
  cbn in Hcur. destruct (lookup_lt_is_Some_2 _ _ Hcur) as [ec Hec].
  rewrite Hec. cbn.
  destruct (Keeps_trans _ _ _ HKs HK _ _ Hec) as (ec2&Hec2&_&_&HNc&_).
  rewrite Hec2. cbn. by rewrite HNc.
Qed.

(** X7. The [Prefix] of that element is a prefix that its table binds to the
    namespace of the tag, when the table binds one to it, and is empty
    otherwise. *)
Theorem start_tag_prefix toks1 v_Name v_Attr toks2 d h :
  Parse range_ns
    (xml.NewDecoder (toks1 ++ xml.StartElement v_Name v_Attr :: toks2) xml.EOF)
  = Returned d h →
  ∃ e, elements h !! start_tags toks1 = Some e
    ∧ ((∃ k, Namespaces e !! k = Some (xml.Space v_Name)) →
       Namespaces e !! Prefix e = Some (xml.Space v_Name))
    ∧ ((∀ k, Namespaces e !! k ≠ Some (xml.Space v_Name)) →
       Prefix e = EmptyString).
Proof.
  intros (st1&st'&st2&Hrun1&Hstep&Hrun2&<-&<-)%around_start_tag.
  apply step_creates in Hstep as (ns0&e&_&He&_&HNs&_&HP).
  apply run_Keeps in Hrun2 as (HK&_).
  destruct (HK _ _ He) as (e2&He2&_&HP2&HNs2&_).
  exists e2. split; [done|]. rewrite HP2, HNs2, HP, <-HNs.
  unfold resolve_prefix.
  destruct (last_match (xml.Space v_Name)
              (range_ns (length (elements (heap st1))) (Namespaces e))
              EmptyString) as [H1 H2].
  split.
  - intros [k Hk]. rewrite <-(elem_of_range_ns range_ns range_ns_perm
                                (length (elements (heap st1)))).
    apply H1. exists k. by apply elem_of_range_ns.
  - intros Hnone. apply H2. intros k Hk%elem_of_range_ns; [|done].
    by apply (Hnone k).
Qed.

(** X8. [Root] on the document that [Parse] returns fails exactly when the
    stream has no start-tag; the element it returns is in the heap and its
    [Parent] is the document. *)
Theorem Root_of_parsed_document dec d h :
  Parse range_ns dec = Returned d h →
  ∃ xr, documents h !! d = Some xr
    ∧ (Root xr = None ↔ start_tags (tokens dec) = 0)
    ∧ ∀ p, Root xr = Some p →
           ∃ e, elements h !! p = Some e ∧ Parent e = Some (PtrXMLDocument d).
Proof.
  intros HP. pose proof (Parse_HInv _ _ _ _ HP) as (Hh&->&Hd).
  apply Parse_Returned in HP as (st&Hrun&<-&_).
  apply run_Keeps in Hrun as (_&Hl&_). cbn in Hl.
  destruct (lookup_lt_is_Some_2 (documents (heap st)) 0) as [xr Hxr]; [lia|].
  assert (Children (heap st) (PtrXMLDocument 0) = doc_children xr) as Hch.
  { cbn. by rewrite Hxr. }
  exists xr. split; [done|]. split; [split|].
  - intros Hnone. rewrite <-Hl.
    destruct (elements (heap st)) as [|e0 es] eqn:Hes; [done|]. exfalso.
    destruct (inv_parent _ Hh 0 e0) as (c&_&Hv&Hin); [by rewrite Hes|].
    destruct c as [d0|p| | |]; try done.
    + cbn in Hv. assert (d0 = 0) as -> by lia.
      rewrite Hch in Hin. by apply (proj1 (first_element_None _) Hnone 0).
    + apply (inv_ordered _ Hh) in Hin. lia.
  - intros H0. apply first_element_None. intros p Hp. rewrite <-Hch in Hp.
    destruct (inv_child _ Hh _ _ Hp) as (e&He%lookup_lt_Some&_). lia.
  - intros p (pre&post&Hcs&_)%first_element_Some.
    apply (inv_child _ Hh). rewrite Hch, Hcs. apply elem_of_app. right. by left.
Qed.

End StartTag.

(** ** The printed set *)

Section Printed.
Variable range_ns : nat → gmap string string → list (string * string).

(** X9. A call of [toxml] only adds to the printed set and adds exactly the
    URIs of the declarations that stand in the text it returns, and that
    text has no declaration for a URI that is in the set when the call
    starts: what an earlier sibling has declared is not declared again.
    [plan] lists, element by element, the declarations in the text. *)
Theorem toxml_skips_printed fuel h n printed s printed' log :
  toxml range_ns fuel h n printed = Some (s, printed', log) →
  ∃ vis plan, preorder fuel h n = Some vis
    ∧ length plan = length vis
    ∧ text fuel h n plan = Some (s, [])
    ∧ printed ⊆ printed'
    ∧ (∀ u, u ∈ printed' ↔ u ∈ printed ∨ u ∈ (snd <$> mjoin plan))
    ∧ ∀ own kv, own ∈ plan → kv ∈ own → kv.2 ∉ printed.
Proof.
  intros Hto. destruct (toxml_text _ _ _ _ _ _ Hto) as (vis&Hvis&Hpr&Htext).
  cbn in Hpr. exists vis, (plan_of range_ns h printed vis).
  split; [done|]. split; [apply length_plan_of|].
  split; [by rewrite <-(app_nil_r (plan_of _ _ _ _)), Htext|].
  split; [set_solver|]. split.
  - intros u. rewrite Hpr, elem_of_union, elem_of_list_to_set. done.
  - intros own [k u] [i Hi]%list_elem_of_lookup_1 Hkv.
    destruct (lookup_lt_is_Some_2 vis i) as [p Hp].
    { apply lookup_lt_Some in Hi. by rewrite length_plan_of in Hi. }
    by destruct (plan_of_lookup range_ns h vis printed i p own k u Hp Hi Hkv)
      as (?&_).
Qed.

End Printed.

(** ** [Stringvalue] *)

Lemma append_nil_r (s : string) : s +:+ EmptyString = s.
Proof.
  induction s as [|a s IH]; [done|].
  change (String a (s +:+ EmptyString) = String a s). by rewrite IH.
Qed.

Lemma sb_String_app l1 l2 : sb_String (l1 ++ l2) = sb_String l1 +:+ sb_String l2.
Proof.
  induction l1 as [|x l1 IH]; [done|].
  cbn. unfold sb_String in *. cbn. by rewrite IH, append_assoc.
Qed.

Lemma sb_String_one (x : string) : sb_String [x] = x.
Proof. apply append_nil_r. Qed.

Lemma Stringvalue_children_ext rec1 rec2 cs :
  (∀ q, PtrElement q ∈ cs → rec1 q = rec2 q) →
  Stringvalue_children rec1 cs = Stringvalue_children rec2 cs.
Proof.
  induction cs as [|c cs IH]; intros Hrec; [done|].
  assert (Stringvalue_children rec1 cs = Stringvalue_children rec2 cs) as Hcs.
  { apply IH. intros q Hq. apply Hrec. by right. }
  destruct c as [d|q|t|t|t i]; cbn; rewrite ?Hcs; try done.
  rewrite (Hrec q) by by left. done.
Qed.

Lemma Stringvalue_children_app rec cs1 cs2 :
  Stringvalue_children rec (cs1 ++ cs2)
  = l1 ← Stringvalue_children rec cs1;
    l2 ← Stringvalue_children rec cs2; Some (l1 ++ l2).
Proof.
  induction cs1 as [|c cs1 IH]; cbn.
  { by destruct (Stringvalue_children rec cs2). }
  destruct c as [d|q|t|t|t i]; cbn; rewrite ?IH; try done.
  - destruct (rec q); [|done]. cbn.
    destruct (Stringvalue_children rec cs1); [|done]. cbn.
    by destruct (Stringvalue_children rec cs2).
  - destruct (Stringvalue_children rec cs1); [|done]. cbn.
    by destruct (Stringvalue_children rec cs2).
Qed.

(** Writing the cell of [p] does not change the string value of an element
    allocated after [p]. *)
Lemma Stringvalue_above h p e' :
  (∀ a b, PtrElement b ∈ Children h (PtrElement a) → a < b) →
  ∀ fuel q, p < q →
    Stringvalue fuel (store_element h p e') q = Stringvalue fuel h q.
Proof.
  intros Hord. induction fuel as [|fuel IH]; intros q Hq; [done|].
  cbn [Stringvalue store_element elements].
  rewrite list_lookup_insert_ne by lia.
  destruct (elements h !! q) as [elt|] eqn:Helt; [|done]. cbn.
  rewrite (Stringvalue_children_ext _ (Stringvalue fuel h)); [done|].
  intros b Hb. apply IH.
  assert (q < b); [|lia]. apply Hord. cbn. by rewrite Helt.
Qed.

Lemma Stringvalue_total h : HInv h → ∀ fuel p,
  p < length (elements h) → (need h (PtrElement p) ≤ fuel)%nat →
  is_Some (Stringvalue fuel h p).
Proof.
  intros Hh. induction fuel as [|fuel IH]; intros p Hp Hfuel.
  { cbn in Hfuel. lia. }
  cbn in Hfuel. cbn [Stringvalue].
  destruct (lookup_lt_is_Some_2 _ _ Hp) as [elt Helt]. rewrite Helt. cbn.
  assert (∀ cs, (∀ q, PtrElement q ∈ cs → PtrElement q ∈ children elt) →
            is_Some (Stringvalue_children (Stringvalue fuel h) cs)) as Hcs.
  { induction cs as [|c cs IHcs]; intros Hsub; [by eexists|].
    destruct IHcs as [l Hl]. { intros q Hq. apply Hsub. by right. }
    destruct c as [d|q|t|t|t i]; cbn; rewrite ?Hl; cbn; try by eexists.
    assert (PtrElement q ∈ Children h (PtrElement p)) as Hq.
    { cbn. rewrite Helt. apply Hsub. by left. }
    destruct (inv_child _ Hh _ _ Hq) as (e&He%lookup_lt_Some&_).
    pose proof (inv_ordered _ Hh _ _ Hq).
    destruct (IH q He) as [sq ->]; [cbn; lia|]. cbn. by eexists. }
  destruct (Hcs (children elt)) as [l ->]; [done|]. cbn. by eexists.
Qed.

Section Text.
Variable range_ns : nat → gmap string string → list (string * string).

(** X10. [Stringvalue] returns on every element of a tree built by [Parse].
    Appending a [CharData] to the element extends its string value by that
    text, whether [Append] merges it into the last child or not; appending a
    [Comment] or a [ProcInst] leaves the string value as it is. *)
Theorem Append_and_Stringvalue dec d h p :
  Parse range_ns dec = Returned d h →
  p < length (elements h) →
  ∃ s, Stringvalue (depth_bound h) h p = Some s
    ∧ (∀ cd h', Element_Append h p (CharData cd) = Some h' →
         Stringvalue (depth_bound h') h' p = Some (s +:+ cd))
    ∧ (∀ cmt h', Element_Append h p (Comment cmt) = Some h' →
         Stringvalue (depth_bound h') h' p = Some s)
    ∧ (∀ target inst h', Element_Append h p (ProcInst target inst) = Some h' →
         Stringvalue (depth_bound h') h' p = Some s).
Proof.
  intros [Hh _]%Parse_HInv Hp.
  destruct (Stringvalue_total h Hh (depth_bound h) p Hp) as [s Hs].
  { unfold depth_bound. cbn. lia. }
  exists s. split; [done|].
  unfold depth_bound in *.
  replace (length (elements h) + 2) with (S (length (elements h) + 1)) in * by lia.
  cbn [Stringvalue] in Hs.
  destruct (elements h !! p) as [elt|] eqn:Helt; [|done]. cbn in Hs.
  destruct (Stringvalue_children _ (children elt)) as [l|] eqn:Hl; [|done].
  injection Hs as <-.
  assert (∀ n h', Element_Append h p n = Some h' →
            (∀ q, n ≠ PtrElement q) →
            Stringvalue (length (elements h') + 2) h' p
            = sb_String
                <$> Stringvalue_children
                      (Stringvalue (length (elements h) + 1) h)
                      (append_child (children elt) n)) as Happ.
  { intros n h'. unfold Element_Append. rewrite Helt. cbn. intros [= <-] Hn.
    cbn [store_element elements]. rewrite length_insert.
    replace (length (elements h) + 2) with (S (length (elements h) + 1)) by lia.
    cbn [Stringvalue store_element elements].
    rewrite list_lookup_insert_eq by done. cbn.
    rewrite (Stringvalue_children_ext _ (Stringvalue (length (elements h) + 1) h)).
    { by destruct (Stringvalue_children _ _). }
    intros q Hq. apply Stringvalue_above; [apply (inv_ordered _ Hh)|].
    apply (inv_ordered _ Hh). cbn. rewrite Helt.
    change (append_child (children elt) n)
      with (grown (PtrElement p) (children elt) n) in Hq.
    apply elem_of_grown in Hq as [?|?]; [done| |done]. by destruct (Hn q). }
  split; [|split].
  - intros cd h' HA. rewrite (Happ _ _ HA) by done.
    destruct (append_child_cases (children elt) (CharData cd))
      as [[-> _]|(pre&str&cd'&[= <-]&Hcs&->)].
    + rewrite Stringvalue_children_app, Hl. cbn.
      by rewrite sb_String_app, sb_String_one.
    + rewrite Hcs, Stringvalue_children_app in Hl.
      rewrite Stringvalue_children_app.
      destruct (Stringvalue_children _ pre) as [lp|]; [|done]. cbn in *.
      injection Hl as <-.
      by rewrite !sb_String_app, !sb_String_one, append_assoc.
  - intros cmt h' HA. rewrite (Happ _ _ HA) by done. cbn.
    rewrite Stringvalue_children_app, Hl. cbn. by rewrite app_nil_r.
  - intros target inst h' HA. rewrite (Happ _ _ HA) by done. cbn.
    rewrite Stringvalue_children_app, Hl. cbn. by rewrite app_nil_r.
Qed.

End Text.

End goxml_more.

(** * Further theorems about revision 2 *)
Module goxml_id_more.
Import goxml_id goxml_id_spec.

(** ** [SortAndEliminateDuplicates] *)

Lemma insert_at_length {A} (l1 : list A) x y l2 :
  <[length l1 := y]> (l1 ++ x :: l2) = l1 ++ y :: l2.
Proof.
  rewrite insert_app_r_alt by lia. by rewrite Nat.sub_diag.
Qed.

(** The loop, [kept] being what stands before index [e], [junk] what stands
    from [e] to before [i], and [rest] what is still to be read. *)
Lemma eliminate_spec h rest : ∀ kept junk prev,
  last (kept ++ junk) = Some prev →
  is_Some (getID h prev) →
  Forall (λ n, is_Some (getID h n)) rest →
  ∃ xn', eliminate h (length rest) (length (kept ++ junk)) (length kept)
           (kept ++ junk ++ rest)
         = Some (xn', length (kept ++ uniq_from h prev rest))
    ∧ take (length (kept ++ uniq_from h prev rest)) xn'
      = kept ++ uniq_from h prev rest.
Proof.
  induction rest as [|a rest IH]; intros kept junk prev Hlast Hprev Hrest.
  { cbn. eexists. split; [by rewrite !app_nil_r|].
    rewrite !app_nil_r. by rewrite take_app_length. }
  apply Forall_cons in Hrest as [Ha Hrest].
  cbn [length eliminate uniq_from].
  assert ((kept ++ junk ++ a :: rest) !! length (kept ++ junk) = Some a) as ->.
  { rewrite app_assoc. by rewrite list_lookup_middle. }
  assert ((kept ++ junk ++ a :: rest) !! (length (kept ++ junk) - 1) = Some prev)
    as ->.
  { apply last_Some in Hlast as [pre Hpre]. rewrite app_assoc, Hpre.
    rewrite length_app. cbn. replace (length pre + 1 - 1) with (length pre) by lia.
    rewrite <-app_assoc. cbn [app]. by apply list_lookup_middle. }
  cbn [mbind option_bind].
  destruct Ha as [ia Hia]. destruct Hprev as [ib Hib]. rewrite Hia, Hib.
  cbn [mbind option_bind].
  destruct (decide (ia = ib)) as [->|Hne].
  - rewrite decide_True by done.
    destruct (IH kept (junk ++ [a]) a) as (xn'&Hel&Htake); [| |done|].
    { by rewrite app_assoc, last_snoc. }
    { by eexists. }
    exists xn'. split; [|done]. rewrite <-Hel.
    replace (S (length (kept ++ junk))) with (length (kept ++ junk ++ [a]))
      by (rewrite !length_app; cbn; lia).
    by replace (kept ++ junk ++ a :: rest) with (kept ++ (junk ++ [a]) ++ rest)
      by (by rewrite <-!app_assoc).
  - rewrite (decide_False (P := Some ia = Some ib)) by congruence.
    assert (∃ junk', <[length kept := a]> (kept ++ junk ++ a :: rest)
                     = (kept ++ [a]) ++ junk' ++ rest
                     ∧ length ((kept ++ [a]) ++ junk') = S (length (kept ++ junk))
                     ∧ last ((kept ++ [a]) ++ junk') = Some a)
      as (junk'&->&Hlen&Hlast').
    { destruct junk as [|j junk].
      - exists []. cbn [app]. rewrite insert_at_length, !app_nil_r.
        split; [by rewrite <-app_assoc|].
        split; [rewrite !length_app; cbn [length]; lia|].
        by rewrite last_snoc.
      - exists (junk ++ [a]). cbn [app]. rewrite insert_at_length.
        split; [by rewrite <-!app_assoc|].
        split; [rewrite !length_app; cbn [length]; lia|].
        by rewrite app_assoc, last_snoc. }
    destruct (IH (kept ++ [a]) junk' a) as (xn'&Hel&Htake); [done| |done|].
    { by eexists. }
    exists xn'. rewrite <-Hlen.
    replace (S (length kept)) with (length (kept ++ [a]))
      by (rewrite length_app; cbn; lia).
    rewrite <-(app_assoc kept [a] (uniq_from h a rest)) in Hel, Htake.
    by split.
Qed.

Section Sorting.
Variable sort_Sort : list XMLNode → list XMLNode.
Variable h : Heap.

(** What [sort.Sort] promises: the same nodes, in an order in which no node
    is [Less] than a node before it. *)
Hypothesis sort_Sort_perm : ∀ l, sort_Sort l ≡ₚ l.
Hypothesis sort_Sort_sorted :
  ∀ l, StronglySorted (λ a b, Less h b a ≠ Some true) (sort_Sort l).

Lemma SortAndEliminateDuplicates_uniq xn :
  Forall (λ n, is_Some (getID h n)) xn →
  SortAndEliminateDuplicates sort_Sort h xn = Some (uniq h (sort_Sort xn)).
Proof.
  intros Hids. unfold SortAndEliminateDuplicates. cbv zeta.
  assert (Forall (λ n, is_Some (getID h n)) (sort_Sort xn)) as Hs.
  { by rewrite sort_Sort_perm. }
  destruct (sort_Sort xn) as [|x0 rest]; [done|].
  apply Forall_cons in Hs as [H0 Hrest].
  case_decide as Hlen.
  { destruct rest; [done|cbn in Hlen; lia]. }
  destruct (eliminate_spec h rest [x0] [] x0) as (xn'&Hel&Htake); [done..|].
  cbn [length app] in Hel.
  replace (length (x0 :: rest) - 1) with (length rest) by (cbn [length]; lia).
  rewrite Hel. cbn [mbind option_bind snd fst]. f_equal. exact Htake.
Qed.

Lemma getID_id_of n : is_Some (getID h n) → getID h n = Some (id_of h n).
Proof. intros [i Hi]. unfold id_of. by rewrite Hi. Qed.

Lemma uniq_from_increasing l : ∀ prev,
  Forall (λ n, is_Some (getID h n)) (prev :: l) →
  StronglySorted (λ a b, Less h b a ≠ Some true) (prev :: l) →
  StronglySorted (λ a b, id_of h a < id_of h b)%Z (uniq_from h prev l)
  ∧ Forall (λ x, id_of h prev < id_of h x)%Z (uniq_from h prev l).
Proof.
  induction l as [|x l IH]; intros prev Hids Hsorted; cbn.
  { split; constructor. }
  pose proof Hids as [Hp [Hx Hl]%Forall_cons]%Forall_cons.
  apply StronglySorted_inv in Hsorted as [Htail Hhead].
  apply Forall_cons in Hhead as [Hpx _].
  destruct (IH x) as [IH1 IH2]; [by constructor|done|].
  assert (id_of h prev ≤ id_of h x)%Z as Hle.
  { unfold Less in Hpx. rewrite (getID_id_of x), (getID_id_of prev) in Hpx by done.
    cbn in Hpx. destruct (decide (id_of h x < id_of h prev)%Z) as [Hlt|]; [|lia].
    by rewrite bool_decide_eq_true_2 in Hpx. }
  rewrite (getID_id_of x), (getID_id_of prev) by done.
  case_decide as Heq.
  - injection Heq as Heq. rewrite <-Heq. done.
  - assert (id_of h prev < id_of h x)%Z as Hlt.
    { destruct (decide (id_of h x = id_of h prev)); [congruence|lia]. }
    split.
    + constructor; [done|done].
    + constructor; [done|]. eapply Forall_impl; [done|]. cbn. lia.
Qed.

Lemma uniq_from_elem_of l : ∀ prev n,
  n ∈ uniq_from h prev l → n ∈ l.
Proof.
  induction l as [|x l IH]; intros prev n; cbn; [done|].
  case_decide.
  - intros ?%IH. by right.
  - intros [->|?%IH]%elem_of_cons; [by left|by right].
Qed.

Lemma uniq_from_covers l : ∀ prev n,
  n ∈ l → ∃ m, m ∈ prev :: uniq_from h prev l ∧ getID h m = getID h n.
Proof.
  induction l as [|x l IH]; intros prev n; [by intros ?%elem_of_nil|].
  cbn. intros [->|Hn]%elem_of_cons.
  - case_decide as Heq.
    + exists prev. split; [by left|done].
    + exists x. split; [right; by left|done].
  - destruct (IH x n Hn) as (m&Hm&Hid). case_decide as Heq.
    + apply elem_of_cons in Hm as [->|Hm].
      * exists prev. split; [by left|congruence].
      * exists m. split; [by right|done].
    + exists m. split; [by right|done].
Qed.

(** X11. [SortAndEliminateDuplicates] returns nodes whose identities are
    strictly increasing: they are in document order and no identity occurs
    twice. *)
Theorem SortAndEliminateDuplicates_increasing xn :
  Forall (λ n, is_Some (getID h n)) xn →
  ∃ r, SortAndEliminateDuplicates sort_Sort h xn = Some r
    ∧ StronglySorted (λ a b, id_of h a < id_of h b)%Z r.
Proof.
  intros Hids. rewrite SortAndEliminateDuplicates_uniq by done.
  eexists. split; [done|].
  pose proof (sort_Sort_sorted xn) as Hsorted.
  assert (Forall (λ n, is_Some (getID h n)) (sort_Sort xn)) as Hs.
  { by rewrite sort_Sort_perm. }
  destruct (sort_Sort xn) as [|x0 rest]; [constructor|].
  destruct (uniq_from_increasing rest x0 Hs Hsorted) as [H1 H2].
  by constructor.
Qed.

(** X12. The nodes it returns are nodes of the argument, and every identity
    of the argument is the identity of a node it returns. *)
Theorem SortAndEliminateDuplicates_same_identities xn :
  Forall (λ n, is_Some (getID h n)) xn →
  ∃ r, SortAndEliminateDuplicates sort_Sort h xn = Some r
    ∧ (∀ n, n ∈ r → n ∈ xn)
    ∧ (∀ n, n ∈ xn → ∃ m, m ∈ r ∧ getID h m = getID h n)
    ∧ (length r ≤ length xn)%nat.
Proof.
  intros Hids. rewrite SortAndEliminateDuplicates_uniq by done.
  eexists. split; [done|].
  assert (∀ n, n ∈ uniq h (sort_Sort xn) → n ∈ sort_Sort xn) as Hsub.
  { destruct (sort_Sort xn) as [|x0 rest]; [done|]. cbn.
    intros n [->|?%uniq_from_elem_of]%elem_of_cons; [by left|by right]. }
  split; [|split].
  - intros n Hn%Hsub. by rewrite sort_Sort_perm in Hn.
  - intros n Hn. rewrite <-(sort_Sort_perm xn) in Hn.
    destruct (sort_Sort xn) as [|x0 rest]; [by apply elem_of_nil in Hn|]. cbn.
    apply elem_of_cons in Hn as [->|Hn]; [exists x0; split; [by left|done]|].
    by apply uniq_from_covers.
  - rewrite <-(Permutation_length (sort_Sort_perm xn)).
    destruct (sort_Sort xn) as [|x0 rest]; [done|]. cbn.
    assert (∀ l prev, (length (uniq_from h prev l) ≤ length l)%nat) as Hlen.
    { induction l as [|x l IH]; intros prev; cbn; [done|].
      case_decide; cbn; [specialize (IH x); lia|specialize (IH x); lia]. }
    specialize (Hlen rest x0). lia.
Qed.

Lemma uniq_from_same l : ∀ prev,
  Forall (λ n, getID h n = getID h prev) l → uniq_from h prev l = [].
Proof.
  induction l as [|x l IH]; intros prev Hall; [done|].
  apply Forall_cons in Hall as [Hx Hl]. cbn. rewrite decide_True by done.
  apply IH. eapply Forall_impl; [done|]. cbn. congruence.
Qed.

(** X13. [Attributes] leaves the [ID] of every attribute at zero, so of the
    attribute nodes of one element [SortAndEliminateDuplicates] keeps one
    only. *)
Theorem SortAndEliminateDuplicates_on_Attributes range_ns elt :
  attributes elt ≠ [] →
  ∃ a, SortAndEliminateDuplicates sort_Sort h
         (PtrAttribute <$> Attributes range_ns elt) = Some [PtrAttribute a]
    ∧ a ∈ Attributes range_ns elt.
Proof.
  intros Hne.
  assert (Forall (λ n, getID h n = Some 0%Z)
                 (PtrAttribute <$> Attributes range_ns elt)) as Hids.
  { apply Forall_fmap, Forall_forall. intros a Ha. cbn.
    unfold Attributes in Ha. apply elem_of_lookup_imap in Ha as (i&x&->&_).
    done. }
  rewrite SortAndEliminateDuplicates_uniq
    by (eapply Forall_impl; [exact Hids|]; cbn; intros ? ->; by eexists).
  assert (∀ n, n ∈ sort_Sort (PtrAttribute <$> Attributes range_ns elt) →
               n ∈ PtrAttribute <$> Attributes range_ns elt) as Hin.
  { intros n Hn. by rewrite sort_Sort_perm in Hn. }
  pose proof (Permutation_length
                (sort_Sort_perm (PtrAttribute <$> Attributes range_ns elt))) as Hlen.
  rewrite <-(sort_Sort_perm (PtrAttribute <$> Attributes range_ns elt)) in Hids.
  destruct (sort_Sort (PtrAttribute <$> Attributes range_ns elt)) as [|x0 rest].
  { rewrite length_fmap in Hlen. unfold Attributes in Hlen.
    rewrite length_imap in Hlen. by destruct (attributes elt). }
  apply Forall_cons in Hids as [H0 Hrest]. cbn.
  rewrite uniq_from_same
    by (eapply Forall_impl; [exact Hrest|]; cbn; congruence).
  assert (x0 ∈ PtrAttribute <$> Attributes range_ns elt) as Hx.
  { apply Hin. by left. }
  apply list_elem_of_fmap in Hx as (a&->&Ha). by exists a.
Qed.

End Sorting.

Lemma StronglySorted_weaken {A} (R R' : relation A) (l : list A) :
  (∀ a b, R a b → R' a b) → StronglySorted R l → StronglySorted R' l.
Proof.
  intros HR. induction 1 as [|x l Hl IH Hx]; constructor; [done|].
  eapply Forall_impl; [exact Hx|]. apply HR.
Qed.

(** The sort by identity meets what [sort.Sort] promises. *)
Lemma sort_by_identity_perm h l : sort_by_identity h l ≡ₚ l.
Proof. apply merge_sort_Permutation. Qed.

Lemma sort_by_identity_sorted h l :
  StronglySorted (λ a b, Less h b a ≠ Some true) (sort_by_identity h l).
Proof.
  assert (Transitive (id_le h)) by (intros a b c; unfold id_le; lia).
  assert (Total (id_le h)) by (intros a b; unfold id_le; lia).
  eapply StronglySorted_weaken; [|apply (StronglySorted_merge_sort (id_le h))].
  intros a b Hab. unfold id_le, id_of, Less in *.
  destruct (getID h b) as [ib|]; [|done]. destruct (getID h a) as [ia|]; [|done].
  cbn in *. intros [= Hlt%bool_decide_eq_true_1]. lia.
Qed.

(** ** The identities [Parse] hands out *)

Lemma int_incr_iter (n : nat) (i : Z) :
  (i + Z.of_nat n ≤ int_max)%Z →
  Nat.iter n int_incr i = (i + Z.of_nat n)%Z.
Proof.
  induction n as [|n IH]; intros Hle; [cbn; lia|].
  rewrite Nat.iter_succ, IH by lia. unfold int_incr.
  rewrite decide_False by lia. lia.
Qed.

Lemma same_fields_refl e : same_fields e e.
Proof. by repeat split. Qed.

Lemma same_fields_trans e1 e2 e3 :
  same_fields e1 e2 → same_fields e2 e3 → same_fields e1 e3.
Proof.
  unfold same_fields. intros (?&?&?&?&?&?&?) (?&?&?&?&?&?&?).
  repeat split; congruence.
Qed.

Lemma Keeps_refl_id h : Keeps h h.
Proof.
  split; [intros p e He; exists e; split; [done|apply same_fields_refl]|].
  intros d xr Hd. by exists xr.
Qed.

Lemma Keeps_trans_id h1 h2 h3 : Keeps h1 h2 → Keeps h2 h3 → Keeps h1 h3.
Proof.
  intros [He1 Hd1] [He2 Hd2]. split.
  - intros p e Hp. destruct (He1 _ _ Hp) as (e2&Hp2&Hs2).
    destruct (He2 _ _ Hp2) as (e3&Hp3&Hs3). exists e3. split; [done|].
    by eapply same_fields_trans.
  - intros d xr Hd. destruct (Hd1 _ _ Hd) as (x2&Hx2&Hi2).
    destruct (Hd2 _ _ Hx2) as (x3&Hx3&Hi3). exists x3. split; [done|congruence].
Qed.

Lemma Keeps_store_element_id h p e e' :
  elements h !! p = Some e → same_fields e e' → Keeps h (store_element h p e').
Proof.
  intros He Hs. split; [|intros d xr Hd; by exists xr].
  intros q eq Hq. cbn. destruct (decide (q = p)) as [->|Hne].
  - exists e'. rewrite list_lookup_insert_eq by by eapply lookup_lt_Some.
    split; [done|]. by simplify_eq.
  - exists eq. rewrite list_lookup_insert_ne by done.
    split; [done|apply same_fields_refl].
Qed.

Lemma Keeps_store_document_id h d xr xr' :
  documents h !! d = Some xr → doc_ID xr' = doc_ID xr →
  Keeps h (store_document h d xr').
Proof.
  intros Hd Hi. split; [intros p e He; exists e; split; [done|apply same_fields_refl]|].
  intros d' x Hx. cbn. destruct (decide (d' = d)) as [->|Hne].
  - exists xr'. rewrite list_lookup_insert_eq by by eapply lookup_lt_Some.
    split; [done|]. by simplify_eq.
  - exists x. by rewrite list_lookup_insert_ne.
Qed.

(** A node that is no attribute changes only the children of the element it
    is appended to. *)
Lemma append_node_same_fields elt n :
  (∀ t, n ≠ ValAttribute t) → (∀ t, n ≠ PtrAttribute t) →
  same_fields elt (append_node elt n).
Proof.
  intros H1 H2. destruct n as [d|q|cd|cd|cmt|pi|t|t];
    try (by repeat split); try (by destruct (H1 t)); try (by destruct (H2 t)).
  - cbn. destruct (last (children elt)) as [[]|]; by repeat split.
  - cbn. destruct (last (children elt)) as [[]|]; by repeat split.
Qed.

Lemma Append_Keeps_id h c n h' :
  (∀ t, n ≠ ValAttribute t) → (∀ t, n ≠ PtrAttribute t) →
  Append h c n = Some h' →
  Keeps h h' ∧ length (elements h') = length (elements h).
Proof.
  intros H1 H2 HA. destruct c as [d|p| | | | | |]; cbn in HA;
    try (injection HA as <-; split; [apply Keeps_refl_id|done]).
  - unfold XMLDocument_Append in HA.
    destruct (documents h !! d) as [xr|] eqn:Hd; [|done]. cbn in HA.
    pose proof (Keeps_store_document_id h d xr
                  {| doc_ID := doc_ID xr; doc_children := doc_children xr ++ [n] |}
                  Hd eq_refl) as HK.
    destruct n as [d'|q|cd|cd|cmt|pi|t|t]; cbn in HA;
      try (injection HA as <-; split; [done|done]);
      try (by destruct (H1 t)); try (by destruct (H2 t)).
    destruct (elements h !! q) as [e|] eqn:Hq; [|done]. cbn in HA.
    injection HA as <-. split; [|cbn; by rewrite length_insert].
    eapply Keeps_trans_id; [exact HK|].
    apply (Keeps_store_element_id _ q e); [done|by repeat split].
  - unfold Element_Append in HA.
    destruct (elements h !! p) as [e|] eqn:Hp; [|done]. cbn in HA.
    injection HA as <-. split; [|cbn; by rewrite length_insert].
    apply (Keeps_store_element_id _ p e); [done|].
    by apply append_node_same_fields.
Qed.

Section Identities.
Variable range_ns : nat → gmap string string → list (string * string).

Lemma step_identity st r st' :
  step range_ns st r = Some st' →
  Keeps (heap st) (heap st')
  ∧ ids st' = (if takes_id r then int_incr (ids st) else ids st)
  ∧ length (elements (heap st'))
    = length (elements (heap st)) + (if starts r then 1 else 0)
  ∧ (starts r = true →
     ∃ e, elements (heap st') !! length (elements (heap st)) = Some e
       ∧ ID e = ids st ∧ Line e = xml.line r ∧ Pos e = xml.column r).
Proof.
  unfold step, takes_id, starts. intros Hstep.
  destruct (xml.tok r) as [v_Name v_Attr|v_Name|v|v|target inst|v] eqn:Htok.
  - cbv zeta in Hstep.
    destruct (inherited range_ns (heap st) (cur st)) as [ns0|]; [|done].
    cbn [mbind option_bind] in Hstep.
    unfold new_element in Hstep. cbn [fst snd] in Hstep.
    match type of Hstep with
    | context [Append ?h _ _] => destruct (Append h (cur st) (PtrElement (length (elements (heap st))))) as [h'|] eqn:HA
    end; [|done].
    cbn [mbind option_bind] in Hstep. injection Hstep as <-. cbn [heap ids].
    apply Append_Keeps_id in HA as [[HKe HKd] Hlen]; [|done..].
    cbn [new_element snd fst elements documents] in HKe, HKd, Hlen.
    rewrite length_app in Hlen. cbn [length] in Hlen.
    split; [split|split; [done|split; [lia|]]].
    + intros p e He. apply HKe. by apply lookup_app_l_Some.
    + done.
    + intros _.
      match type of HKe with
      | context [elements (heap st) ++ [?tmp]] =>
          destruct (HKe (length (elements (heap st))) tmp) as (e'&He'&Hs)
      end.
      { by rewrite list_lookup_middle. }
      exists e'. split; [done|]. destruct Hs as (HI&_&_&_&_&HL&HP).
      by rewrite HI, HL, HP.
  - case_decide; [done|]. destruct (eltstack st !! _); [|done].
    cbn in Hstep. injection Hstep as <-. cbn.
    split; [apply Keeps_refl_id|]. split; [done|]. split; [lia|done].
  - cbv zeta in Hstep.
    destruct (Append (heap st) (cur st) _) as [h'|] eqn:HA; [|done].
    cbn in Hstep. injection Hstep as <-. cbn [heap ids].
    apply Append_Keeps_id in HA as [HK Hlen]; [|done..].
    split; [done|]. split; [done|]. split; [lia|done].
  - cbv zeta in Hstep.
    destruct (Append (heap st) (cur st) _) as [h'|] eqn:HA; [|done].
    cbn in Hstep. injection Hstep as <-. cbn [heap ids].
    apply Append_Keeps_id in HA as [HK Hlen]; [|done..].
    split; [done|]. split; [done|]. split; [lia|done].
  - cbv zeta in Hstep.
    destruct (Append (heap st) (cur st) _) as [h'|] eqn:HA; [|done].
    cbn in Hstep. injection Hstep as <-. cbn [heap ids].
    apply Append_Keeps_id in HA as [HK Hlen]; [|done..].
    split; [done|]. split; [done|]. split; [lia|done].
  - injection Hstep as <-. split; [apply Keeps_refl_id|]. split; [done|].
    split; [lia|done].
Qed.

Lemma run_identity rs : ∀ st st',
  run range_ns st rs = Some st' →
  Keeps (heap st) (heap st')
  ∧ ids st' = Nat.iter (length (List.filter takes_id rs)) int_incr (ids st)
  ∧ length (elements (heap st'))
    = length (elements (heap st)) + length (List.filter starts rs).
Proof.
  induction rs as [|r rs IH]; intros st st' Hrun; cbn in Hrun.
  { injection Hrun as <-. split; [apply Keeps_refl_id|]. split; [done|cbn; lia]. }
  destruct (step range_ns st r) as [st1|] eqn:Hstep; [|done]. cbn in Hrun.
  apply step_identity in Hstep as (HK1&Hi1&Hl1&_).
  apply IH in Hrun as (HK2&Hi2&Hl2).
  split; [by eapply Keeps_trans_id|]. cbn [List.filter].
  split.
  - rewrite Hi2, Hi1. destruct (takes_id r); [|done].
    cbn [length]. by rewrite Nat.iter_succ_r.
  - rewrite Hl2, Hl1. destruct (starts r); cbn [length]; lia.
Qed.

Lemma run_split_id rs1 : ∀ rs2 st st',
  run range_ns st (rs1 ++ rs2) = Some st' →
  ∃ st1, run range_ns st rs1 = Some st1 ∧ run range_ns st1 rs2 = Some st'.
Proof.
  induction rs1 as [|r rs1 IH]; intros rs2 st st' Hrun; cbn in *.
  { by exists st. }
  destruct (step range_ns st r) as [st0|]; [|done]. cbn in *. by apply IH.
Qed.

(** X14. When [Parse] returns and no other goroutine has received from the
    generator meanwhile, the generator has sent one identity for the
    document and one for every start-tag, text, comment and processing
    instruction read, merged text included, and none for an end-tag or a
    directive; the document has the first of them. *)
Theorem Parse_takes_one_identity_per_node next dec d h :
  Parse range_ns next dec = Returned d h →
  ∃ st xr, run range_ns (init next) (xml.reads dec) = Some st
    ∧ heap st = h
    ∧ ids st = Nat.iter (S (length (List.filter takes_id (xml.reads dec))))
                        int_incr next
    ∧ documents h !! d = Some xr ∧ doc_ID xr = next.
Proof.
  unfold Parse. destruct (run range_ns (init next) (xml.reads dec)) as [st|] eqn:Hrun;
    [|done].
  destruct (xml.final dec); [|done]. intros [= <- <-].
  apply run_identity in Hrun as ([_ HKd]&Hi&_).
  destruct (HKd 0 {| doc_ID := next; doc_children := [] |} eq_refl) as (xr&Hxr&Hid).
  exists st, xr. split; [done|]. split; [done|]. split; [|done].
  by rewrite Hi, Nat.iter_succ_r.
Qed.

(** X15. The element [Parse] builds for a start-tag has the identity that
    follows the one of the document by the number of node-creating reads up
    to the start-tag, and the line and column of the read; while the
    generator does not wrap around, the identities of elements grow in
    document order. *)
Theorem start_tag_identity next rs1 r rs2 d h :
  Parse range_ns next {| xml.reads := rs1 ++ r :: rs2; xml.final := xml.EOF |}
  = Returned d h →
  starts r = true →
  ∃ e, elements h !! length (List.filter starts rs1) = Some e
    ∧ ID e = Nat.iter (S (length (List.filter takes_id rs1))) int_incr next
    ∧ Line e = xml.line r ∧ Pos e = xml.column r
    ∧ ((next + Z.of_nat (S (length (List.filter takes_id rs1))) ≤ int_max)%Z →
       ID e = (next + Z.of_nat (S (length (List.filter takes_id rs1))))%Z).
Proof.
  intros HP Hr. apply Parse_takes_one_identity_per_node in HP
    as (st&_&Hrun&<-&_). cbn [xml.reads] in Hrun.
  apply run_split_id in Hrun as (st1&Hrun1&Hrun2). cbn in Hrun2.
  destruct (step range_ns st1 r) as [st2|] eqn:Hstep; [|done]. cbn in Hrun2.
  apply run_identity in Hrun1 as (_&Hi1&Hl1). cbn in Hl1.
  apply step_identity in Hstep as (_&_&_&Hnew).
  destruct (Hnew Hr) as (e&He&HI&HL&HP).
  apply run_identity in Hrun2 as ([HK _]&_&_).
  destruct (HK _ _ He) as (e'&He'&HI'&_&_&_&_&HL'&HP').
  exists e'. rewrite <-Hl1. split; [done|].
  assert (ID e' = Nat.iter (S (length (List.filter takes_id rs1))) int_incr next)
    as HID.
  { rewrite HI', HI, Hi1. by rewrite Nat.iter_succ_r. }
  split; [done|]. split; [congruence|]. split; [congruence|].
  intros Hle. rewrite HID. by apply int_incr_iter.
Qed.

End Identities.

(** ** [SetAttribute], called twice *)

Lemma filter_twice (attrs : list xml.Attr) (name : xml.Name) :
  filter (λ a, xml.AName a ≠ name) (filter (λ a, xml.AName a ≠ name) attrs)
  = filter (λ a, xml.AName a ≠ name) attrs.
Proof.
  induction attrs as [|a attrs IH]; [done|].
  destruct (decide (xml.AName a = name)) as [Ha|Ha].
  - by rewrite (filter_cons_False (λ a, xml.AName a ≠ name)) by naive_solver.
  - rewrite (filter_cons_True (λ a, xml.AName a ≠ name)) by done.
    rewrite (filter_cons_True (λ a, xml.AName a ≠ name)) by done.
    by rewrite IH.
Qed.

Section SetTwice.
Variable range_ns1 range_ns2 : gmap string string → list (string * string).

(** X16. For a name without namespace the last call wins: setting the
    attribute twice leaves what the second call alone leaves. *)
Theorem SetAttribute_last_call_wins elt (attr1 attr2 : xml.Attr) :
  xml.AName attr1 = xml.AName attr2 →
  xml.Space (xml.AName attr2) = EmptyString →
  SetAttribute range_ns2 (SetAttribute range_ns1 elt attr1) attr2
  = SetAttribute range_ns2 elt attr2.
Proof.
  intros Hname Hsp. unfold SetAttribute. cbv zeta.
  cbn [attributes set_attributes Namespaces].
  rewrite !(decide_False (P := xml.Space (xml.AName attr2) ≠ EmptyString))
    by (intros H; by apply H).
  rewrite (decide_False (P := xml.Space (xml.AName attr1) ≠ EmptyString))
    by (rewrite Hname; intros H; by apply H).
  rewrite filter_app, filter_cons_False, filter_nil, app_nil_r
    by (intros H; by apply H).
  rewrite Hname. unfold set_attributes. cbn [ID Name Prefix Parent Namespaces
    children attributes Line Pos].
  by rewrite filter_twice.
Qed.


End SetTwice.

(** ** [Attributes] *)

Lemma last_binding space (l : list (string * string)) : ∀ init,
  let r := foldl (λ pfx kv, if decide (kv.2 = space) then kv.1 else pfx) init l in
  ((∃ k, (k, space) ∈ l) → (r, space) ∈ l)
  ∧ ((∀ k, (k, space) ∉ l) → r = init).
Proof.
  induction l as [|[k v] l IH] using rev_ind; intros init r.
  { split; [by intros [k ?%elem_of_nil]|done]. }
  unfold r. rewrite foldl_snoc. cbn. destruct (IH init) as [IH1 IH2].
  case_decide as Hv.
  - subst v. split; [|intros H; by destruct (H k); apply elem_of_app; right; left].
    intros _. apply elem_of_app. right. by left.
  - split.
    + intros [k' [Hin|Hin]%elem_of_app].
      * apply elem_of_app. left. apply IH1. by exists k'.
      * apply list_elem_of_singleton in Hin. by simplify_eq.
    + intros Hnone. apply IH2. intros k' Hin. apply (Hnone k').
      apply elem_of_app. by left.
Qed.

Section Listed.
Variable range_ns : nat → gmap string string → list (string * string).
Hypothesis range_ns_perm : ∀ i m, range_ns i m ≡ₚ map_to_list m.

(** X18. [Attributes] returns one attribute for every stored attribute, in
    the stored order, with its local name, namespace and value and with the
    identity zero.  Its [Prefix] is a prefix that the table of the element
    binds to the namespace of the attribute, when the table binds one to
    it, and is empty otherwise. *)
Theorem Attributes_resolves_prefix elt :
  length (Attributes range_ns elt) = length (attributes elt)
  ∧ ∀ i xmlattr, attributes elt !! i = Some xmlattr →
      ∃ a, Attributes range_ns elt !! i = Some a
        ∧ att_ID a = 0%Z
        ∧ att_Name a = xml.Local (xml.AName xmlattr)
        ∧ att_Namespace a = xml.Space (xml.AName xmlattr)
        ∧ att_Value a = xml.Value xmlattr
        ∧ ((∃ k, Namespaces elt !! k = Some (xml.Space (xml.AName xmlattr))) →
           Namespaces elt !! att_Prefix a
           = Some (xml.Space (xml.AName xmlattr)))
        ∧ ((∀ k, Namespaces elt !! k ≠ Some (xml.Space (xml.AName xmlattr))) →
           att_Prefix a = EmptyString).
Proof.
  unfold Attributes. split; [by rewrite length_imap|].
  intros i xmlattr Hi. eexists. split.
  { rewrite list_lookup_imap, Hi. done. }
  cbn. do 4 (split; [done|]).
  destruct (last_binding (xml.Space (xml.AName xmlattr))
              (range_ns i (Namespaces elt)) EmptyString) as [H1 H2].
  split.
  - intros [k Hk].
    rewrite <-(goxml_facts.elem_of_range_ns range_ns range_ns_perm i).
    apply H1. exists k. by apply goxml_facts.elem_of_range_ns.
  - intros Hnone. apply H2.
    intros k Hk%goxml_facts.elem_of_range_ns; [|done]. by apply (Hnone k).
Qed.

End Listed.

End goxml_id_more.

(** * The statements on concrete documents *)
Module goxml_examples.
Import goxml goxml_spec goxml_documents.

(** C1. On <r xmlns:a="urn:a" a:x="1"/> the tree has the attribute
    (urn:a, x, 1); its serialization is <r xmlns:a="urn:a" x="1" />, and the
    tree parsed from that text has the attribute (no namespace, x, 1). *)
Theorem roundtrip_loses_attribute_namespace :
  ∃ h1 h2 e1 e2,
    Parse any_order (xml.NewDecoder qualified_attribute xml.EOF) = Returned 0 h1
    ∧ ToXML any_order h1 (PtrXMLDocument 0) = Some qualified_attribute_text
    ∧ Parse any_order (xml.NewDecoder qualified_attribute_again xml.EOF)
      = Returned 0 h2
    ∧ elements h1 !! 0 = Some e1 ∧ elements h2 !! 0 = Some e2
    ∧ Name e1 = Name e2 ∧ Namespaces e1 = Namespaces e2
    ∧ attributes e1 = [attr "urn:a" "x" "1"]
    ∧ attributes e2 = [attr EmptyString "x" "1"].
Proof.
  do 4 eexists.
  split; [vm_compute; reflexivity|]. split; [vm_compute; reflexivity|].
  split; [vm_compute; reflexivity|]. split; [reflexivity|].
  split; [reflexivity|]. split; [reflexivity|]. split; [reflexivity|].
  split; reflexivity.
Qed.


(** C5, counterexample. An element appended to one document and then to
    another is a child of both, and its [Parent] has changed from the first
    to the second. *)
Lemma element_moves_between_documents :
  ∃ h1 h2,
    XMLDocument_Append two_documents 0 (PtrElement 0) = Some h1
    ∧ XMLDocument_Append h1 1 (PtrElement 0) = Some h2
    ∧ Parent <$> elements h1 !! 0 = Some (Some (PtrXMLDocument 0))
    ∧ Parent <$> elements h2 !! 0 = Some (Some (PtrXMLDocument 1))
    ∧ Children h2 (PtrXMLDocument 0) = [PtrElement 0]
    ∧ Children h2 (PtrXMLDocument 1) = [PtrElement 0].
Proof.
  do 2 eexists. split; [vm_compute; reflexivity|].
  split; [vm_compute; reflexivity|]. split; [reflexivity|].
  split; [reflexivity|]. split; reflexivity.
Qed.

Lemma Parse_gives_one_parent_witness :
  ∃ st1 st2,
    run any_order init (take 2 nested_namespace) = Some st1
    ∧ run any_order st1 (drop 2 nested_namespace) = Some st2
    ∧ ∀ q e, elements (heap st1) !! q = Some e →
        ∃ c, Parent e = Some c ∧ valid (heap st1) c
          ∧ length (filter (λ n, n = PtrElement q) (Children (heap st1) c)) = 1
          ∧ (∀ c', PtrElement q ∈ Children (heap st1) c' → c' = c)
          ∧ ∃ e', elements (heap st2) !! q = Some e' ∧ Parent e' = Some c.
Proof.
  do 2 eexists. split; [vm_compute; reflexivity|].
  split; [vm_compute; reflexivity|].
  refine (proj1 (goxml_facts.Parse_gives_one_parent any_order
                   (take 2 nested_namespace) (drop 2 nested_namespace) _ _ _ _));
    vm_compute; reflexivity.
Defined.

(** C9. On a document with a document type declaration between two line
    ends, the two [CharData] line ends are children of the document next to
    each other, while [Append] on an element merges the text ab and cd into
    one child abcd. *)
Theorem Document_keeps_adjacent_CharData :
  (∃ h, Parse any_order (xml.NewDecoder with_doctype xml.EOF) = Returned 0 h
     ∧ Children h (PtrXMLDocument 0)
       = [ ProcInst "xml" ("version=" +:+ dq +:+ "1.0" +:+ dq);
           CharData nl; CharData nl; PtrElement 0 ]
     ∧ adjacent_CharData (Children h (PtrXMLDocument 0)) = true)
  ∧ append_child (append_child [] (CharData "ab")) (CharData "cd")
    = [CharData "abcd"].
Proof.
  split; [|reflexivity].
  eexists. split; [vm_compute; reflexivity|]. split; reflexivity.
Qed.

Lemma namespace_declared_once_witness :
  (∀ p m, any_order p m ≡ₚ map_to_list m)
  ∧ ∃ h s printed log,
      Parse any_order (xml.NewDecoder nested_namespace xml.EOF) = Returned 0 h
      ∧ toxml any_order (depth_bound h) h (PtrXMLDocument 0) ∅
        = Some (s, printed, log)
      ∧ s = "<a:r xmlns:a=" +:+ dq +:+ "urn:x" +:+ dq +:+ "><a:c />t</a:r>"
      ∧ text (depth_bound h) h (PtrXMLDocument 0) [[("a", "urn:x")]; []]
        = Some (s, [])
      ∧ ∃ vis plan, preorder (depth_bound h) h (PtrXMLDocument 0) = Some vis
          ∧ length plan = length vis
          ∧ text (depth_bound h) h (PtrXMLDocument 0) plan = Some (s, [])
          ∧ NoDup (snd <$> mjoin plan)
          ∧ (∀ u, u ∈ (snd <$> mjoin plan) ↔
                  ∃ p elt k, p ∈ vis ∧ elements h !! p = Some elt
                             ∧ Namespaces elt !! k = Some u)
          ∧ (∀ i p own k u,
               vis !! i = Some p → plan !! i = Some own → (k, u) ∈ own →
               ∃ elt, elements h !! p = Some elt
                 ∧ Namespaces elt !! k = Some u
                 ∧ ∀ j q elt' k', j < i → vis !! j = Some q →
                                  elements h !! q = Some elt' →
                                  Namespaces elt' !! k' ≠ Some u).
Proof.
  split; [reflexivity|].
  do 4 eexists. split; [vm_compute; reflexivity|].
  split; [vm_compute; reflexivity|]. split; [reflexivity|].
  split; [vm_compute; reflexivity|].
  refine (proj1 (proj2 (proj2
            (goxml_facts.namespace_declared_once any_order
               (λ p m, reflexivity (map_to_list m))))) _ _ _ _ _ _ _).
  vm_compute; reflexivity.
Defined.

Lemma attribute_written_by_local_name_witness :
  ∃ h elt s printed log,
    Parse any_order (xml.NewDecoder qualified_attribute xml.EOF) = Returned 0 h
    ∧ elements h !! 0 = Some elt
    ∧ toxml any_order 2 h (PtrElement 0) ∅ = Some (s, printed, log)
    ∧ s = qualified_attribute_text
    ∧ (∃ rest,
         s = "<" +:+ written_name elt
             +:+ sb_String
                   (fmt_ns <$> first_uses snd ∅ (any_order 0 (Namespaces elt)))
             +:+ sb_String (local_attr <$> attributes elt) +:+ rest)
    ∧ toxml any_order 2 (forget_attr_space h) (PtrElement 0) ∅
      = Some (s, printed, log).
Proof.
  do 5 eexists. split; [vm_compute; reflexivity|]. split; [reflexivity|].
  split; [vm_compute; reflexivity|]. split; [reflexivity|].
  refine (proj1 (goxml_facts.attribute_written_by_local_name any_order)
            1 _ 0 _ ∅ _ _ _ _ _); vm_compute; reflexivity.
Defined.

(** ** Further theorems, on the documents above *)

Lemma escape_leaves_no_markup_witness :
  "&"%char ∈ String.list_ascii_of_string (escape "<")
  ∧ "&"%char ≠ "<"%char ∧ "&"%char ≠ Ascii.ascii_of_nat 34.
Proof.
  assert ("&"%char ∈ String.list_ascii_of_string (escape "<")) as H
    by (vm_compute; constructor).
  split; [exact H|].
  exact (goxml_more.escape_leaves_no_markup "<" "&"%char H).
Defined.


Lemma start_tag_name_and_attributes_witness :
  ∃ h, Parse any_order (xml.NewDecoder qualified_attribute xml.EOF) = Returned 0 h
    ∧ ∃ e, elements h !! start_tags [] = Some e
        ∧ Name e = xml.Local (name EmptyString "r")
        ∧ attributes e
          = filter (λ att, declares att = None)
                   [attr "xmlns" "a" "urn:a"; attr "urn:a" "x" "1"]
        ∧ Forall (λ att, xml.Local (xml.AName att) ≠ "xmlns"
                         ∧ xml.Space (xml.AName att) ≠ "xmlns") (attributes e).
Proof.
  eexists. split; [vm_compute; reflexivity|].
  apply (goxml_more.start_tag_name_and_attributes any_order []
           (name EmptyString "r")
           [attr "xmlns" "a" "urn:a"; attr "urn:a" "x" "1"]
           [xml.EndElement (name EmptyString "r")] 0).
  vm_compute; reflexivity.
Defined.

Lemma start_tag_bindings_witness :
  (∀ p m, any_order p m ≡ₚ map_to_list m)
  ∧ ∃ h, Parse any_order (xml.NewDecoder nested_namespace xml.EOF) = Returned 0 h
      ∧ ∃ e c, elements h !! start_tags (take 1 nested_namespace) = Some e
          ∧ Parent e = Some c
          ∧ ∀ k, Namespaces e !! k
                 = from_option Some (table h c !! k) (declared k []).
Proof.
  split; [reflexivity|].
  eexists. split; [vm_compute; reflexivity|].
  apply (goxml_more.start_tag_bindings any_order
           (λ p m, reflexivity (map_to_list m))
           (take 1 nested_namespace) (name "urn:x" "c") []
           (drop 2 nested_namespace) 0).
  vm_compute; reflexivity.
Defined.

Lemma start_tag_prefix_witness :
  (∀ p m, any_order p m ≡ₚ map_to_list m)
  ∧ ∃ h, Parse any_order (xml.NewDecoder nested_namespace xml.EOF) = Returned 0 h
      ∧ ∃ e, elements h !! start_tags (take 1 nested_namespace) = Some e
          ∧ ((∃ k, Namespaces e !! k = Some (xml.Space (name "urn:x" "c"))) →
             Namespaces e !! Prefix e = Some (xml.Space (name "urn:x" "c")))
          ∧ ((∀ k, Namespaces e !! k ≠ Some (xml.Space (name "urn:x" "c"))) →
             Prefix e = EmptyString).
Proof.
  split; [reflexivity|].
  eexists. split; [vm_compute; reflexivity|].
  apply (goxml_more.start_tag_prefix any_order
           (λ p m, reflexivity (map_to_list m))
           (take 1 nested_namespace) (name "urn:x" "c") []
           (drop 2 nested_namespace) 0).
  vm_compute; reflexivity.
Defined.

Lemma Root_of_parsed_document_witness :
  ∃ h, Parse any_order (xml.NewDecoder with_doctype xml.EOF) = Returned 0 h
    ∧ ∃ xr, documents h !! 0 = Some xr
        ∧ (Root xr = None
           ↔ start_tags (tokens (xml.NewDecoder with_doctype xml.EOF)) = 0)
        ∧ ∀ p, Root xr = Some p →
               ∃ e, elements h !! p = Some e
                    ∧ Parent e = Some (PtrXMLDocument 0).
Proof.
  eexists. split; [vm_compute; reflexivity|].
  apply (goxml_more.Root_of_parsed_document any_order
           (xml.NewDecoder with_doctype xml.EOF) 0).
  vm_compute; reflexivity.
Defined.

Lemma toxml_skips_printed_witness :
  ∃ h s printed' log,
    Parse any_order (xml.NewDecoder nested_namespace xml.EOF) = Returned 0 h
    ∧ toxml any_order 3 h (PtrXMLDocument 0) {[ "urn:x" ]}
      = Some (s, printed', log)
    ∧ s = "<a:r><a:c />t</a:r>"
    ∧ ∃ vis plan, preorder 3 h (PtrXMLDocument 0) = Some vis
        ∧ length plan = length vis
        ∧ text 3 h (PtrXMLDocument 0) plan = Some (s, [])
        ∧ ({[ "urn:x" ]} : gset string) ⊆ printed'
        ∧ (∀ u, u ∈ printed' ↔ u ∈ ({[ "urn:x" ]} : gset string)
                                ∨ u ∈ (snd <$> mjoin plan))
        ∧ ∀ own kv, own ∈ plan → kv ∈ own →
                    kv.2 ∉ ({[ "urn:x" ]} : gset string).
Proof.
  do 4 eexists. split; [vm_compute; reflexivity|].
  match goal with
  | |- ?T ∧ _ => assert T as Ht by (vm_compute; reflexivity)
  end.
  split; [exact Ht|]. split; [reflexivity|].
  exact (goxml_more.toxml_skips_printed _ _ _ _ _ _ _ _ Ht).
Defined.

Lemma Append_and_Stringvalue_witness :
  ∃ h, Parse any_order (xml.NewDecoder nested_namespace xml.EOF) = Returned 0 h
    ∧ 0 < length (elements h)
    ∧ ∃ s, Stringvalue (depth_bound h) h 0 = Some s
        ∧ (∀ cd h', Element_Append h 0 (CharData cd) = Some h' →
             Stringvalue (depth_bound h') h' 0 = Some (s +:+ cd))
        ∧ (∀ cmt h', Element_Append h 0 (Comment cmt) = Some h' →
             Stringvalue (depth_bound h') h' 0 = Some s)
        ∧ (∀ target inst h',
             Element_Append h 0 (ProcInst target inst) = Some h' →
             Stringvalue (depth_bound h') h' 0 = Some s).
Proof.
  eexists. split; [vm_compute; reflexivity|]. split; [vm_compute; lia|].
  apply (goxml_more.Append_and_Stringvalue any_order
           (xml.NewDecoder nested_namespace xml.EOF) 0);
    [vm_compute; reflexivity|vm_compute; lia].
Defined.

End goxml_examples.

Module goxml_id_examples.
Import goxml_id goxml_id_documents.

(** C4. On <r>a<![CDATA[b]]></r>, parsed when the generator is at 0, the
    document has identity 0, the element 1, the two texts receive 2 and 3,
    and the merged text that stays in the tree has identity 0: the
    identities in document order are 0, 1, 0. *)
Theorem merged_text_has_identity_zero :
  ∃ h, Parse goxml_documents.any_order 0 text_and_cdata = Returned 0 h
    ∧ Children h (PtrElement 0)
      = Some [ValCharData {| cd_ID := 0; cd_Contents := "ab" |}]
    ∧ preorder_ids 3 h (PtrXMLDocument 0) = Some [0; 1; 0]%Z.
Proof.
  eexists. split; [vm_compute; reflexivity|]. split; reflexivity.
Qed.

(** C6, counterexample. Setting a to 3 on an element with the attributes
    a=1, b=2 gives b=2, a=3: the attribute a has moved from the first to the
    last position. *)
Lemma SetAttribute_moves_the_attribute :
  attributes two_attributes !! 0 = Some (goxml_documents.attr EmptyString "a" "1")
  ∧ attributes (SetAttribute map_to_list two_attributes
                  (goxml_documents.attr EmptyString "a" "3"))
    = [ goxml_documents.attr EmptyString "b" "2";
        goxml_documents.attr EmptyString "a" "3" ].
Proof. split; reflexivity. Qed.


Lemma SetAttribute_appends_at_the_end_witness :
  attributes two_attributes
  = [] ++ goxml_documents.attr EmptyString "a" "1"
       :: [goxml_documents.attr EmptyString "b" "2"]
  ∧ ∃ stored,
      attributes (SetAttribute map_to_list two_attributes
                    (goxml_documents.attr EmptyString "a" "3"))
      = [] ++ [goxml_documents.attr EmptyString "b" "2"] ++ [stored]
      ∧ xml.Value stored = "3".
Proof.
  split; [reflexivity|].
  refine (proj1 (proj2 (goxml_id_facts.SetAttribute_appends_at_the_end map_to_list))
            two_attributes (goxml_documents.attr EmptyString "a" "3")
            [] (goxml_documents.attr EmptyString "a" "1")
            [goxml_documents.attr EmptyString "b" "2"] eq_refl eq_refl _).
  intros a Ha. apply list_elem_of_singleton in Ha. subst a. discriminate.
Defined.

(** ** Further theorems, on the documents above *)

Lemma SortAndEliminateDuplicates_increasing_witness :
  Forall (λ n, is_Some (getID no_heap n)) five_nodes
  ∧ SortAndEliminateDuplicates (goxml_id_spec.sort_by_identity no_heap)
      no_heap five_nodes
    = Some [comment 1; comment 2; comment 3]
  ∧ ∃ r, SortAndEliminateDuplicates (goxml_id_spec.sort_by_identity no_heap)
           no_heap five_nodes = Some r
      ∧ StronglySorted
          (λ a b, goxml_id_spec.id_of no_heap a < goxml_id_spec.id_of no_heap b)%Z
          r.
Proof.
  assert (Forall (λ n, is_Some (getID no_heap n)) five_nodes) as H
    by (repeat first [apply Forall_nil_2 | apply Forall_cons_2; [by eexists|]]).
  split; [exact H|]. split; [vm_compute; reflexivity|].
  exact (goxml_id_more.SortAndEliminateDuplicates_increasing
           (goxml_id_spec.sort_by_identity no_heap) no_heap
           (goxml_id_more.sort_by_identity_perm no_heap)
           (goxml_id_more.sort_by_identity_sorted no_heap) five_nodes H).
Defined.

Lemma SortAndEliminateDuplicates_same_identities_witness :
  Forall (λ n, is_Some (getID no_heap n)) five_nodes
  ∧ ∃ r, SortAndEliminateDuplicates (goxml_id_spec.sort_by_identity no_heap)
           no_heap five_nodes = Some r
      ∧ (∀ n, n ∈ r → n ∈ five_nodes)
      ∧ (∀ n, n ∈ five_nodes →
              ∃ m, m ∈ r ∧ getID no_heap m = getID no_heap n)
      ∧ (length r ≤ length five_nodes)%nat.
Proof.
  assert (Forall (λ n, is_Some (getID no_heap n)) five_nodes) as H
    by (repeat first [apply Forall_nil_2 | apply Forall_cons_2; [by eexists|]]).
  split; [exact H|].
  exact (goxml_id_more.SortAndEliminateDuplicates_same_identities
           (goxml_id_spec.sort_by_identity no_heap) no_heap
           (goxml_id_more.sort_by_identity_perm no_heap) five_nodes H).
Defined.

Lemma SortAndEliminateDuplicates_on_Attributes_witness :
  attributes bound_prefix ≠ []
  ∧ length (Attributes goxml_documents.any_order bound_prefix) = 2
  ∧ ∃ a, SortAndEliminateDuplicates (goxml_id_spec.sort_by_identity no_heap)
           no_heap
           (PtrAttribute <$> Attributes goxml_documents.any_order bound_prefix)
         = Some [PtrAttribute a]
      ∧ a ∈ Attributes goxml_documents.any_order bound_prefix.
Proof.
  split; [discriminate|]. split; [reflexivity|].
  apply (goxml_id_more.SortAndEliminateDuplicates_on_Attributes
           (goxml_id_spec.sort_by_identity no_heap) no_heap
           (goxml_id_more.sort_by_identity_perm no_heap)
           goxml_documents.any_order bound_prefix).
  discriminate.
Defined.

Lemma Parse_takes_one_identity_per_node_witness :
  ∃ h, Parse goxml_documents.any_order 7 text_and_cdata = Returned 0 h
    ∧ ∃ st xr,
        run goxml_documents.any_order (init 7) (xml.reads text_and_cdata)
        = Some st
        ∧ heap st = h
        ∧ ids st
          = Nat.iter
              (S (length (List.filter goxml_id_spec.takes_id
                            (xml.reads text_and_cdata))))
              int_incr 7%Z
        ∧ documents h !! 0 = Some xr ∧ doc_ID xr = 7%Z.
Proof.
  eexists. split; [vm_compute; reflexivity|].
  apply (goxml_id_more.Parse_takes_one_identity_per_node
           goxml_documents.any_order 7 text_and_cdata 0).
  vm_compute; reflexivity.
Defined.

Lemma start_tag_identity_witness :
  ∃ h, Parse goxml_documents.any_order 7 text_and_cdata = Returned 0 h
    ∧ goxml_id_spec.starts
        (read (xml.StartElement (goxml_documents.name EmptyString "r") []) 4)
      = true
    ∧ ∃ e, elements h !! length (List.filter goxml_id_spec.starts []) = Some e
        ∧ ID e = Nat.iter (S (length (List.filter goxml_id_spec.takes_id [])))
                          int_incr 7%Z
        ∧ Line e = 1%Z ∧ Pos e = 4%Z
        ∧ ((7 + Z.of_nat (S (length (List.filter goxml_id_spec.takes_id [])))
            ≤ int_max)%Z →
           ID e = (7 + Z.of_nat
                         (S (length (List.filter goxml_id_spec.takes_id []))))%Z).
Proof.
  eexists. split; [vm_compute; reflexivity|]. split; [reflexivity|].
  apply (goxml_id_more.start_tag_identity goxml_documents.any_order 7 []
           (read (xml.StartElement (goxml_documents.name EmptyString "r") []) 4)
           (drop 1 (xml.reads text_and_cdata)) 0);
    [vm_compute; reflexivity|reflexivity].
Defined.

Lemma SetAttribute_last_call_wins_witness :
  xml.AName (goxml_documents.attr EmptyString "a" "3")
  = xml.AName (goxml_documents.attr EmptyString "a" "4")
  ∧ xml.Space (xml.AName (goxml_documents.attr EmptyString "a" "4"))
    = EmptyString
  ∧ SetAttribute map_to_list
      (SetAttribute map_to_list two_attributes
         (goxml_documents.attr EmptyString "a" "3"))
      (goxml_documents.attr EmptyString "a" "4")
    = SetAttribute map_to_list two_attributes
        (goxml_documents.attr EmptyString "a" "4").
Proof.
  split; [reflexivity|]. split; [reflexivity|].
  apply (goxml_id_more.SetAttribute_last_call_wins map_to_list map_to_list
           two_attributes (goxml_documents.attr EmptyString "a" "3")
           (goxml_documents.attr EmptyString "a" "4")); reflexivity.
Defined.


Lemma Attributes_resolves_prefix_witness :
  (∀ i m, goxml_documents.any_order i m ≡ₚ map_to_list m)
  ∧ attributes bound_prefix !! 0 = Some (goxml_documents.attr "urn:a" "x" "1")
  ∧ ∃ a, Attributes goxml_documents.any_order bound_prefix !! 0 = Some a
      ∧ att_ID a = 0%Z
      ∧ att_Name a = xml.Local (xml.AName (goxml_documents.attr "urn:a" "x" "1"))
      ∧ att_Namespace a
        = xml.Space (xml.AName (goxml_documents.attr "urn:a" "x" "1"))
      ∧ att_Value a = xml.Value (goxml_documents.attr "urn:a" "x" "1")
      ∧ ((∃ k, Namespaces bound_prefix !! k
               = Some (xml.Space (xml.AName (goxml_documents.attr "urn:a" "x" "1")))) →
         Namespaces bound_prefix !! att_Prefix a
         = Some (xml.Space (xml.AName (goxml_documents.attr "urn:a" "x" "1"))))
      ∧ ((∀ k, Namespaces bound_prefix !! k
               ≠ Some (xml.Space (xml.AName (goxml_documents.attr "urn:a" "x" "1")))) →
         att_Prefix a = EmptyString).
Proof.
  split; [reflexivity|]. split; [reflexivity|].
  exact (proj2 (goxml_id_more.Attributes_resolves_prefix
                  goxml_documents.any_order
                  (λ i m, reflexivity (map_to_list m)) bound_prefix)
           0 (goxml_documents.attr "urn:a" "x" "1") eq_refl).
Defined.

End goxml_id_examples.
